(** * memmodel: the comparator and the graph emitter of the memory-model checker

    A shallow embedding of [main] and [writeModelGraph] of command
    [memmodel], and the properties of the counterexample table and of the
    emitted dot graph. *)

From Stdlib Require Import ZArith Lia Ascii String.
From stdpp Require Import base decidable option list sets strings pretty gmap.

Open Scope Z_scope.
Open Scope nat_scope.

(** ** Declarations the driver relies on *)

(** A Go array [[N]T].  The driver indexes [Threads] and [Ops] at the
    constant [0], also on the zero-valued programs that [make] produces, so
    both are arrays of at least one element and the index cannot fail. *)
Record array (T : Type) : Type := Array { elem0 : T; elems : list T }.
Arguments Array {T} _ _.
Arguments elem0 {T} _.
Arguments elems {T} _.

(** The two implementations of the [Model] interface that [models] lists:
    [SCModel{}] and [TSOModel{StoreMFence: b}]. *)
Inductive Model : Type :=
  | SCModel
  | TSOModel (StoreMFence : bool).

#[global] Instance Model_eq_dec : EqDecision Model.
Proof. solve_decision. Defined.

(** The program model, the outcome sets and the methods of the models are
    declared in files of the package other than the driver.  The driver uses
    exactly this much of them:
    - [p.Threads[0].Ops[0].Type] and the constant [OpExit];
    - the zero value of [Prog] (the cells [make] creates) and of [OutcomeSet];
    - [p.String()];
    - [==] and [Contains] on outcome sets;
    - [model.Eval(&p, &outcomes[i])], which reads the program and leaves its
      result in the outcome set it is handed;
    - the text the verb [%q] prints for a model: its display name [String()],
      quoted by the formatting library. *)
Class Decls : Type := {
  OpType : Type;
  OpType_eq_dec :: EqDecision OpType;
  OpExit : OpType;
  Op : Type;
  Type_ : Op → OpType;
  Thread : Type;
  Ops : Thread → array Op;
  Prog : Type;
  Threads : Prog → array Thread;
  Prog_zero : Prog;
  Prog_String : Prog → string;
  OutcomeSet : Type;
  OutcomeSet_eq_dec :: EqDecision OutcomeSet;
  OutcomeSet_zero : OutcomeSet;
  Contains : OutcomeSet → OutcomeSet → bool;
  Eval : Model → Prog → OutcomeSet → OutcomeSet;
  Model_String : Model → string;
  quote : string → string
}.

(** [var models = []Model{SCModel{}, TSOModel{}, TSOModel{StoreMFence: true}}] *)
Definition models : list Model := [SCModel; TSOModel false; TSOModel true].

(** [counterexamples [][]Prog] *)
Abbreviation Table := (list (list Prog)).

(** ** Loops that may panic *)

(** [for i := range xs { body }] over the indices [idx], threading the state;
    [None] is a run-time panic (index out of range). *)
Fixpoint forRange {S : Type} (body : nat → S → option S) (idx : list nat) (s : S)
  : option S :=
  match idx with
  | [] => Some s
  | i :: idx' => s' ← body i s; forRange body idx' s'
  end.

Section Comparator.
Context `{Decls}.

(** [make([][]Prog, n)] followed by [make([]Prog, n)] for every row. *)
Definition makeTable (n : nat) : Table := replicate n (replicate n Prog_zero).

(** [t[i][j]] *)
Definition getCell (t : Table) (i j : nat) : option Prog :=
  row ← t !! i; row !! j.

(** The body of the inner comparator loop (lines 239 to 256). *)
Definition compareCell (p : Prog) (outcomes : list OutcomeSet) (i j : nat)
    (t : Table) : option Table :=
  if decide (i = j) then Some t else
  row ← t !! i;
  c ← row !! j;
  if decide (Type_ (elem0 (Ops (elem0 (Threads c)))) ≠ OpExit) then Some t else
  oi ← outcomes !! i;
  oj ← outcomes !! j;
  if decide (oi = oj) then Some t else
  if Contains oi oj then Some (<[i := <[j := p]> row]> t) else Some t.

(** [for j := range counterexamples[i] { ... }] *)
Definition compareRow (p : Prog) (outcomes : list OutcomeSet) (i : nat)
    (t : Table) : option Table :=
  row ← t !! i;
  forRange (compareCell p outcomes i) (seq 0 (length row)) t.

(** [for i := range counterexamples { ... }] *)
Definition compareAll (p : Prog) (outcomes : list OutcomeSet) (t : Table)
  : option Table :=
  forRange (compareRow p outcomes) (seq 0 (length t)) t.

(** [for i, model := range models { model.Eval(&p, &outcomes[i]) }] *)
Definition evalModels (p : Prog) (outcomes : list OutcomeSet)
  : option (list OutcomeSet) :=
  forRange
    (λ i outs,
       model ← models !! i;
       o ← outs !! i;
       Some (<[i := Eval model p o]> outs))
    (seq 0 (length models)) outcomes.

(** *** The vocabulary of the specification *)

(** A cell is empty when the first operation of the first thread of the
    program stored in it is [OpExit]. *)
Definition cellEmpty (c : Prog) : bool :=
  bool_decide (Type_ (elem0 (Ops (elem0 (Threads c)))) = OpExit).

(** [a] contains [b] and is not equal to it. *)
Definition properSuperset (a b : OutcomeSet) : bool :=
  Contains a b && negb (bool_decide (a = b)).

(** What the specification says cell [(i, j)] holds after program [p] has
    been compared. *)
Definition newCell (p : Prog) (outcomes : list OutcomeSet) (i j : nat)
    (c : Prog) : Prog :=
  match outcomes !! i, outcomes !! j with
  | Some oi, Some oj =>
      if bool_decide (i ≠ j) && cellEmpty c && properSuperset oi oj
      then p else c
  | _, _ => c
  end.

(** An [n] by [n] table. *)
Definition square (n : nat) (t : Table) : Prop :=
  length t = n ∧ Forall (λ row, length row = n) t.

End Comparator.

(** ** The process and its effects *)

(** Where a writer sends its bytes: [os.Stdout] or the file [os.Create]
    returned. *)
Inductive Dest : Type :=
  | Stdout
  | File (path : string).

(** What the process does to the outside, one event per library call. *)
Inductive Event : Type :=
  | EvUsage                                  (* flag.Usage() *)
  | EvStderr (s : string)                    (* a print on os.Stderr *)
  | EvCreate (path : string) (ok : bool)     (* os.Create(path) *)
  | EvWrite (w : Dest) (s : string)          (* one Fprint call on w *)
  | EvClose (path : string).                 (* f.Close() *)

#[global] Instance Dest_eq_dec : EqDecision Dest.
Proof. solve_decision. Defined.
#[global] Instance Event_eq_dec : EqDecision Event.
Proof. solve_decision. Defined.

(** How a computation stops early: [os.Exit(code)], or a run-time panic. *)
Inductive Halt : Type :=
  | Exit (code : Z)
  | Panic.

Inductive Res (A : Type) : Type :=
  | Val (a : A)
  | Stop (h : Halt).
Arguments Val {A} _.
Arguments Stop {A} _.

(** The events so far and the number of [os.Create] calls so far. *)
Record World : Type := mkWorld { trace : list Event; creates : nat }.

Definition IO (A : Type) : Type := World → World * Res A.

#[global] Instance IO_ret : MRet IO := λ A a w, (w, Val a).
#[global] Instance IO_bind : MBind IO := λ A B f m w,
  match m w with
  | (w', Val a) => f a w'
  | (w', Stop h) => (w', Stop h)
  end.

Definition emit (e : Event) : IO unit :=
  λ w, (mkWorld (trace w ++ [e]) (creates w), Val tt).

Definition osExit {A : Type} (code : Z) : IO A := λ w, (w, Stop (Exit code)).

(** An index out of range is a panic. *)
Definition orPanic {A : Type} (o : option A) : IO A :=
  λ w, match o with Some a => (w, Val a) | None => (w, Stop Panic) end.

(** [for i, x := range xs { body }] for a body that only performs effects. *)
Fixpoint forEach {A : Type} (body : nat → A → IO unit) (i : nat) (xs : list A)
  : IO unit :=
  match xs with
  | [] => mret tt
  | x :: xs' => body i x;; forEach body (S i) xs'
  end.

(** The characters the string literals of the driver escape. *)
Definition nl : string := String "010"%char EmptyString.
Definition cr : string := String "013"%char EmptyString.
Definition dq : string := String "034"%char EmptyString.

(** [strings.Replace(s, "\n", "\n# ", -1)] *)
Fixpoint replaceNewlines (s : string) : string :=
  match s with
  | EmptyString => EmptyString
  | String c s' =>
      if decide (c = "010"%char)
      then nl +:+ "# " +:+ replaceNewlines s'
      else String c (replaceNewlines s')
  end.

(** [int] is 64 bits wide on the platforms the tool runs on; [n++] wraps. *)
Definition wrap64 (z : Z) : Z := ((z + 2 ^ 63) mod 2 ^ 64 - 2 ^ 63)%Z.

Section Driver.
Context `{Decls}.

(** The file system's answer to the [k]-th call of [os.Create], for the
    path it is given: [None] when the file is created, the error otherwise. *)
Variable createErr : nat → string → option string.

(** [f, err := os.Create(path)] *)
Definition osCreate (path : string) : IO (Dest + string) :=
  λ w,
    match createErr (creates w) path with
    | None =>
        (mkWorld (trace w ++ [EvCreate path true]) (S (creates w)),
         Val (inl (File path)))
    | Some err =>
        (mkWorld (trace w ++ [EvCreate path false]) (S (creates w)),
         Val (inr err))
    end.

(** What [%q] prints for a model. *)
Definition fmtq (m : Model) : string := quote (Model_String m).

(** The body of the inner loop of [writeModelGraph] (lines 306 to 319). *)
Definition graphCell (w : Dest) (i j : nat) (p : Prog) : IO unit :=
  if decide (i = j) then mret tt else
  if decide (Type_ (elem0 (Ops (elem0 (Threads p)))) = OpExit) then
    mi ← orPanic (models !! i);
    mj ← orPanic (models !! j);
    emit (EvWrite w (fmtq mi +:+ " -> " +:+ fmtq mj +:+ ";" +:+ nl))
  else
    mi ← orPanic (models !! i);
    mj ← orPanic (models !! j);
    emit (EvWrite w ("# " +:+ fmtq mi +:+ " is weaker than " +:+ fmtq mj
                       +:+ ";" +:+ nl));;
    emit (EvWrite w ("# " +:+ replaceNewlines (Prog_String p) +:+ nl)).

Definition writeModelGraph (w : Dest) (counterexamples : Table) : IO unit :=
  emit (EvWrite w ("digraph memmodel {" +:+ nl));;
  emit (EvWrite w ("label=" +:+ dq
                     +:+ "A -> B means A is stronger than or equal to B"
                     +:+ dq +:+ ";" +:+ nl));;
  forEach (λ _ model, emit (EvWrite w (fmtq model +:+ ";" +:+ nl))) 0 models;;
  forEach (λ i row, forEach (graphCell w i) 0 row) 0 counterexamples;;
  emit (EvWrite w ("}" +:+ nl)).

(** The variables of [main] that live across iterations. *)
Record State : Type := mkState {
  n : Z;
  outcomes : list OutcomeSet;
  counterexamples : Table
}.

(** [n++], the evaluation of every model and the update of the table
    (lines 231 to 258). *)
Definition advance (p : Prog) (st : State) : option State :=
  let n' := wrap64 (n st + 1) in
  outs ← evalModels p (outcomes st);
  t ← compareAll p outs (counterexamples st);
  Some (mkState n' outs t).

(** Lines 264 to 270. *)
Definition snapshot (flagOut : string) (t : Table) : IO unit :=
  r ← osCreate flagOut;
  match r with
  | inr err => emit (EvStderr (err +:+ nl));; osExit 1
  | inl f => writeModelGraph f t;; emit (EvClose flagOut)
  end.

(** One iteration of [for p := range GenerateProgs()]. *)
Definition loopBody (flagOut : string) (p : Prog) (st : State) : IO State :=
  (if decide (Z.rem (n st) 10 = 0%Z)
   then emit (EvStderr (cr +:+ pretty (n st) +:+ " progs"))
   else mret tt);;
  st' ← orPanic (advance p st);
  (if decide (Z.rem (n st') 100 = 0%Z ∧ flagOut ≠ EmptyString)
   then snapshot flagOut (counterexamples st')
   else mret tt);;
  mret st'.

(** The loop over the programs the generator yields, in order. *)
Fixpoint runLoop (flagOut : string) (progs : list Prog) (st : State) : IO State :=
  match progs with
  | [] => mret st
  | p :: progs' => st' ← loopBody flagOut p st; runLoop flagOut progs' st'
  end.

(** The state before the first program: [n := 0] and the two [make]s. *)
Definition initState : State :=
  mkState 0 (replicate (length models) OutcomeSet_zero)
          (makeTable (length models)).

(** What [main] does once the generator is exhausted (lines 273 to 285); the
    deferred [f.Close()] runs when [main] returns. *)
Definition finish (flagOut : string) (st : State) : IO unit :=
  emit (EvStderr (cr +:+ pretty (n st) +:+ " progs" +:+ nl));;
  if decide (flagOut ≠ EmptyString) then
    r ← osCreate flagOut;
    match r with
    | inr err => emit (EvStderr (err +:+ nl));; osExit 1
    | inl f => writeModelGraph f (counterexamples st);; emit (EvClose flagOut)
    end
  else writeModelGraph Stdout (counterexamples st).

(** [main], given what [flag] parsed ([flag.NArg()] and [*flagOut]) and the
    finite sequence [GenerateProgs()] yields. *)
Definition main (nargs : nat) (flagOut : string) (progs : list Prog) : IO unit :=
  if decide (0 < nargs) then emit EvUsage;; osExit 2 else
  st ← runLoop flagOut progs initState;
  finish flagOut st.

(** The world before [main] starts. *)
Definition world0 : World := mkWorld [] 0.

(** The exit status of the process: [0] when [main] returns. *)
Definition exitStatus {A : Type} (r : Res A) : option Z :=
  match r with
  | Val _ => Some 0%Z
  | Stop (Exit code) => Some code
  | Stop Panic => None
  end.

End Driver.

(** ** The vocabulary of the specification of the output *)

(** The lines of a text: the pieces between its newlines. *)
Fixpoint lines (s : string) : list string :=
  match s with
  | EmptyString => [EmptyString]
  | String c s' =>
      if decide (c = "010"%char) then EmptyString :: lines s'
      else match lines s' with
           | l :: ls => String c l :: ls
           | [] => [String c EmptyString]
           end
  end.

(** The lines again, with a newline between two of them. *)
Fixpoint joinLines (ls : list string) : string :=
  match ls with
  | [] => EmptyString
  | [l] => l
  | l :: ls' => l +:+ nl +:+ joinLines ls'
  end.

(** Every line of a text prefixed as a comment. *)
Definition commentText (text : string) : string :=
  joinLines (map (λ l, "# " +:+ l) (lines text)) +:+ nl.

(** What follows the first line of a commented text: every further line,
    after a newline and the comment prefix. *)
Fixpoint commentedTail (ls : list string) : string :=
  match ls with
  | [] => EmptyString
  | l :: ls' => nl +:+ "# " +:+ l +:+ commentedTail ls'
  end.

(** The computation writes the pieces [chunks] to [w], in order, and does
    nothing else. *)
Definition emits (m : IO unit) (w : Dest) (chunks : list string) : Prop :=
  ∀ wld, m wld
         = (mkWorld (trace wld ++ map (EvWrite w) chunks) (creates wld), Val tt).

Section GraphSpec.
Context `{Decls}.

Definition header : string := "digraph memmodel {" +:+ nl.
Definition footer : string := "}" +:+ nl.
Definition labelDecl : string :=
  "label=" +:+ dq +:+ "A -> B means A is stronger than or equal to B"
           +:+ dq +:+ ";" +:+ nl.
Definition nodeStmt (m : Model) : string := fmtq m +:+ ";" +:+ nl.
Definition edgeStmt (mi mj : Model) : string :=
  fmtq mi +:+ " -> " +:+ fmtq mj +:+ ";" +:+ nl.
Definition weakerComment (mi mj : Model) : string :=
  "# " +:+ fmtq mi +:+ " is weaker than " +:+ fmtq mj +:+ ";" +:+ nl.

(** What the graph holds for the cell [(i, j)] with content [p]. *)
Definition cellChunks (i j : nat) (mi mj : Model) (p : Prog) : list string :=
  if decide (i = j) then []
  else if cellEmpty p then [edgeStmt mi mj]
       else [weakerComment mi mj; commentText (Prog_String p)].

(** The ordered pairs of distinct indices below [k], row by row. *)
Definition orderedPairs (k : nat) : list (nat * nat) :=
  i ← seq 0 k; j ← seq 0 k; if decide (i ≠ j) then [(i, j)] else [].

(** What the graph says about the pair [(i, j)]: an edge when the cell is
    empty, the comment and the commented witness otherwise. *)
Definition pairChunks (t : Table) (ij : nat * nat) : list string :=
  match getCell t ij.1 ij.2, models !! ij.1, models !! ij.2 with
  | Some c, Some mi, Some mj =>
      if cellEmpty c then [edgeStmt mi mj]
      else [weakerComment mi mj; commentText (Prog_String c)]
  | _, _, _ => []
  end.

(** The graph as the specification describes it, one piece per statement. *)
Definition graphSpec (t : Table) : list string :=
  [header; labelDecl] ++ map nodeStmt models
    ++ (orderedPairs (length models) ≫= pairChunks t) ++ [footer].

(** The events of one persistence of the graph in the file [path]. *)
Definition persistEvents (path : string) (t : Table) : list Event :=
  [EvCreate path true] ++ map (EvWrite (File path)) (graphSpec t)
    ++ [EvClose path].

(** The table after the programs [ps] have been compared, from state [st]. *)
Definition stateAfter (ps : list Prog) (st : State) : option State :=
  foldl (λ o p, o ≫= advance p) (Some st) ps.

(** The programs after which the graph is persisted when an output path is
    configured: every hundredth. *)
Definition snapshotTimes (count : nat) : list nat :=
  filter (λ k, k mod 100 = 0) (seq 1 count).

(** The graphs persisted while the programs [ps] are compared from state
    [st], when [k0] programs came before them. *)
Definition snapshotsFrom (flagOut : string) (k0 : nat) (ps : list Prog)
    (st : State) : list Event :=
  k ← filter (λ k, k mod 100 = 0) (seq (S k0) (length ps));
  match stateAfter (take (k - k0) ps) st with
  | Some s => persistEvents flagOut (counterexamples s)
  | None => []
  end.

(** The progress line of an iteration that starts in state [st]. *)
Definition progressEvents (st : State) : list Event :=
  if decide (Z.rem (n st) 10 = 0%Z)
  then [EvStderr (cr +:+ pretty (n st) +:+ " progs")] else [].

(** The shape [main] gives its variables: one outcome set per model and a
    table with one row and one column per model. *)
Definition wfState (st : State) : Prop :=
  length (outcomes st) = length models
  ∧ square (length models) (counterexamples st).

End GraphSpec.

Arguments graphSpec : simpl never.
Arguments persistEvents : simpl never.
Arguments progressEvents : simpl never.

(** *** What a reader of the output path can observe *)

(** The content of the file [path] after one more event. *)
Definition fileStep (path : string) (content : option string) (e : Event)
  : option string :=
  match e with
  | EvCreate p true => if decide (p = path) then Some EmptyString else content
  | EvWrite (File p) s =>
      if decide (p = path) then (λ c, c +:+ s) <$> content else content
  | _ => content
  end.

Definition fileAfter (path : string) (old : option string) (tr : list Event)
  : option string :=
  foldl (fileStep path) old tr.

(** The contents a reader may see: one after every prefix of the events. *)
Definition observations (path : string) (old : option string) (tr : list Event)
  : list (option string) :=
  map (λ k, fileAfter path old (take k tr)) (seq 0 (S (length tr))).

(** The complete results: the prior content, and the content each time the
    file is closed. *)
Definition completeResults (path : string) (old : option string)
    (tr : list Event) : list (option string) :=
  old :: omap (λ k, match tr !! k with
                    | Some (EvClose p) =>
                        if decide (p = path)
                        then Some (fileAfter path old (take (S k) tr))
                        else None
                    | _ => None
                    end) (seq 0 (length tr)).

(** An atomic persistence shows a reader complete results only. *)
Definition atomicWrites (path : string) (old : option string) (tr : list Event)
  : bool :=
  forallb (λ c, bool_decide (c ∈ completeResults path old tr))
          (observations path old tr).

(** The events that touch the file system. *)
Definition isFileEvent (e : Event) : bool :=
  match e with
  | EvCreate _ _ | EvWrite (File _) _ | EvClose _ => true
  | _ => false
  end.

(** The events that touch the file [path] only. *)
Definition targets (path : string) (e : Event) : Prop :=
  match e with
  | EvCreate p _ | EvWrite (File p) _ | EvClose p => p = path
  | _ => True
  end.

(** The events that carry the graph: everything but the diagnostics. *)
Definition isGraphEvent (e : Event) : bool :=
  match e with
  | EvStderr _ | EvUsage => false
  | _ => true
  end.

Definition graphEvents (tr : list Event) : list Event :=
  filter (λ e, isGraphEvent e) tr.

Definition isFailedCreate (e : Event) : bool :=
  match e with
  | EvCreate _ false => true
  | _ => false
  end.

(** ** A small instance to evaluate the driver on *)

Module Demo.

(** A sample program model in the shape the driver expects: operations with
    a kind and a variable, threads as arrays of operations, programs as
    arrays of threads.  The theorems below hold for every instance of
    [Decls]; this one only serves to run the driver on concrete inputs. *)
Inductive kind : Type := KExit | KStore | KLoad.

#[global] Instance kind_eq_dec : EqDecision kind.
Proof. solve_decision. Defined.

Record op : Type := mkOp { opKind : kind; opVar : nat }.

Definition opString (o : op) : string :=
  match opKind o with
  | KExit => EmptyString
  | KStore => "st " +:+ pretty (opVar o)
  | KLoad => "ld " +:+ pretty (opVar o)
  end.

Definition threadString (t : array op) : string :=
  opString (elem0 t) +:+ "; " +:+ joinLines (map opString (elems t)).

Definition progString (p : array (array op)) : string :=
  joinLines (map threadString (elem0 p :: elems p)).

Definition zeroThread : array op := Array (mkOp KExit 0) [mkOp KExit 0].
Definition zeroProg : array (array op) := Array zeroThread [zeroThread].

(** Sample outcome sets: bit sets over outcomes, with the superset-or-equal
    test. *)
Definition contains (a b : N) : bool := (N.land a b =? b)%N.

(** Sample evaluators, standing in for the real ones: for a program that
    starts with a store they return the outcome sets of store buffering (TSO
    permits one outcome more than SC and than TSO with the store fence), for
    every other program one common outcome. *)
Definition eval (m : Model) (p : array (array op)) (_ : N) : N :=
  match opKind (elem0 (elem0 p)), m with
  | KStore, TSOModel false => 15%N
  | KStore, _ => 14%N
  | _, _ => 1%N
  end.

Definition modelString (m : Model) : string :=
  match m with
  | SCModel => "SC"
  | TSOModel false => "TSO"
  | TSOModel true => "TSO+Fence"
  end.

#[global] Instance decls : Decls := {|
  OpType := kind;
  OpExit := KExit;
  Op := op;
  Type_ := opKind;
  Thread := array op;
  Ops := λ t, t;
  Prog := array (array op);
  Threads := λ p, p;
  Prog_zero := zeroProg;
  Prog_String := progString;
  OutcomeSet := N;
  OutcomeSet_zero := 0%N;
  Contains := contains;
  Eval := eval;
  Model_String := modelString;
  quote := λ s, dq +:+ s +:+ dq
|}.

(** Store buffering: thread 0 stores x and loads y, thread 1 stores y and
    loads x. *)
Definition sb : Prog :=
  Array (Array (mkOp KStore 0) [mkOp KLoad 1])
        [Array (mkOp KStore 1) [mkOp KLoad 0]].

(** Two threads that only load. *)
Definition loads : Prog :=
  Array (Array (mkOp KLoad 0) [mkOp KLoad 1])
        [Array (mkOp KLoad 1) [mkOp KLoad 0]].

(** The outcome sets of store buffering, and the table after it was
    compared: TSO is weaker than both other models on it. *)
Definition outcomesSB : list (@OutcomeSet decls) := [14; 15; 14]%N.

Definition tableSB : list (list (@Prog decls)) :=
  [[zeroProg; zeroProg; zeroProg]; [sb; zeroProg; sb];
   [zeroProg; zeroProg; zeroProg]].

Definition stateSB : @State decls := mkState 1 outcomesSB tableSB.

(** A file system on which every [os.Create] succeeds. *)
Definition createOk : nat → string → option string := λ _ _, None.

(** A file system on which the second [os.Create] fails. *)
Definition createFail2 : nat → string → option string :=
  λ k _, if decide (k = 1) then Some "permission denied" else None.

End Demo.

(** * The saved builds: names, listing and resolution *)

(** ** Regular expressions *)

Module Regexp.

(** The syntax the three patterns of the package use: character classes,
    concatenation, alternation and repetition. *)
Inductive regex : Type :=
  | Never
  | Eps
  | Class (P : ascii → bool)
  | Cat (r1 r2 : regex)
  | Alt (r1 r2 : regex)
  | Star (r : regex).

(** [c], [[lo-hi]], [r?], [r{k}], [r{0,k}] and [r{m,n}]. *)
Definition Char (c : ascii) : regex := Class (λ x, bool_decide (x = c)).

Definition Range (lo hi : ascii) : regex :=
  Class (λ x, (nat_of_ascii lo <=? nat_of_ascii x)
              && (nat_of_ascii x <=? nat_of_ascii hi)).

Definition Opt (r : regex) : regex := Alt r Eps.

Fixpoint Times (k : nat) (r : regex) : regex :=
  match k with
  | 0 => Eps
  | S k' => Cat r (Times k' r)
  end.

Fixpoint UpTo (k : nat) (r : regex) : regex :=
  match k with
  | 0 => Eps
  | S k' => Opt (Cat r (UpTo k' r))
  end.

Definition Repeat (m n : nat) (r : regex) : regex :=
  Cat (Times m r) (UpTo (n - m) r).

(** The strings a pattern denotes. *)
Inductive lang : regex → string → Prop :=
  | lang_Eps : lang Eps EmptyString
  | lang_Class P c : P c = true → lang (Class P) (String c EmptyString)
  | lang_Cat r1 r2 s1 s2 :
      lang r1 s1 → lang r2 s2 → lang (Cat r1 r2) (s1 +:+ s2)
  | lang_Alt_l r1 r2 s : lang r1 s → lang (Alt r1 r2) s
  | lang_Alt_r r1 r2 s : lang r2 s → lang (Alt r1 r2) s
  | lang_Star_nil r : lang (Star r) EmptyString
  | lang_Star_app r s1 s2 :
      lang r s1 → lang (Star r) s2 → lang (Star r) (s1 +:+ s2).

(** Matching by derivatives. *)
Fixpoint nullable (r : regex) : bool :=
  match r with
  | Never => false
  | Eps => true
  | Class _ => false
  | Cat r1 r2 => nullable r1 && nullable r2
  | Alt r1 r2 => nullable r1 || nullable r2
  | Star _ => true
  end.

Fixpoint deriv (c : ascii) (r : regex) : regex :=
  match r with
  | Never => Never
  | Eps => Never
  | Class P => if P c then Eps else Never
  | Cat r1 r2 =>
      if nullable r1 then Alt (Cat (deriv c r1) r2) (deriv c r2)
      else Cat (deriv c r1) r2
  | Alt r1 r2 => Alt (deriv c r1) (deriv c r2)
  | Star r' => Cat (deriv c r') (Star r')
  end.

(** [re.MatchString(s)] for a pattern anchored with [^] and [$]: the whole
    of [s] is in the language of the pattern between the anchors. *)
Fixpoint MatchString (r : regex) (s : string) : bool :=
  match s with
  | EmptyString => nullable r
  | String c s' => MatchString (deriv c r) s'
  end.

(** The pattern [r] denotes the one-byte strings whose byte satisfies [P]. *)
Definition oneOf (r : regex) (P : ascii → bool) : Prop :=
  ∀ s, lang r s ↔ ∃ c, s = String c EmptyString ∧ P c = true.

End Regexp.

(** Every byte of [s] satisfies [P]. *)
Fixpoint allChars (P : ascii → bool) (s : string) : bool :=
  match s with
  | EmptyString => true
  | String c s' => P c && allChars P s'
  end.

(** A digit of a lower-case hexadecimal number. *)
Definition isHex (c : ascii) : bool :=
  ((nat_of_ascii "0" <=? nat_of_ascii c) && (nat_of_ascii c <=? nat_of_ascii "9"))
  || ((nat_of_ascii "a" <=? nat_of_ascii c)
      && (nat_of_ascii c <=? nat_of_ascii "f")).

(** [k] hexadecimal digits. *)
Definition hexDigits (k : nat) (s : string) : Prop :=
  String.length s = k ∧ allChars isHex s = true.

(** ** Strings *)

(** The text before and the text after the first byte [sep] of [s]. *)
Fixpoint cutAt (sep : ascii) (s : string) : option (string * string) :=
  match s with
  | EmptyString => None
  | String c s' =>
      if decide (c = sep) then Some (EmptyString, s')
      else match cutAt sep s' with
           | Some (a, b) => Some (String c a, b)
           | None => None
           end
  end.

(** [strings.SplitN(s, sep, 2)] for a separator of one byte. *)
Definition SplitN2 (sep : ascii) (s : string) : list string :=
  match cutAt sep s with
  | Some (a, b) => [a; b]
  | None => [s]
  end.

(** [strings.HasPrefix(s, prefix)] *)
Definition HasPrefix (s prefix : string) : bool := String.prefix prefix s.

(** ** Results of functions that may stop the process *)

(** A result, a fatal log message followed by exit status 1 ([log.Fatal]),
    or a run-time panic. *)
Inductive Outcome (A : Type) : Type :=
  | Ok (a : A)
  | Fatal (msg : string)
  | Panicked.
Arguments Ok {A} _.
Arguments Fatal {A} _.
Arguments Panicked {A}.

#[global] Instance Outcome_ret : MRet Outcome := λ A a, Ok a.
#[global] Instance Outcome_bind : MBind Outcome := λ A B f m,
  match m with
  | Ok a => f a
  | Fatal msg => Fatal msg
  | Panicked => Panicked
  end.

(** An index out of range is a panic. *)
Definition index {A : Type} (l : list A) (i : nat) : Outcome A :=
  match l !! i with
  | Some a => Ok a
  | None => Panicked
  end.

(** A loop over a slice whose body may stop the process. *)
Fixpoint forEachO {A S : Type} (body : A → S → Outcome S) (xs : list A) (s : S)
  : Outcome S :=
  match xs with
  | [] => Ok s
  | x :: xs' => s' ← body x s; forEachO body xs' s'
  end.

(** ** The file system and the library *)

(** What the package reads of an [os.FileInfo]: [Name()], [IsDir()] and
    whether [Mode()&os.ModeType == os.ModeSymlink]. *)
Record FileInfo : Type := mkFileInfo {
  Name : string;
  IsDir : bool;
  IsSymlink : bool
}.

#[global] Instance FileInfo_eq_dec : EqDecision FileInfo.
Proof. solve_decision. Defined.

(** The three answers of [ioutil.ReadDir] the package tells apart. *)
Inductive ReadDirResult : Type :=
  | Entries (files : list FileInfo)
  | NotExist
  | ReadDirError (err : string).

(** [time.Time]: its zero value, or [time.Unix(sec, nsec)]. *)
Inductive Time : Type :=
  | TimeZero
  | Unix (sec nsec : Z).

(** The flag [*verDir], the file system as the calls of the package read it,
    and the library functions whose text is not part of the package. *)
Class Sys : Type := {
  verDir : string;
  Join : list string → string;                (* filepath.Join *)
  Stat : string → option bool;                (* os.Stat: IsDir(), or an error *)
  ReadDir : string → ReadDirResult;           (* ioutil.ReadDir *)
  Readlink : string → option string;          (* os.Readlink, or an error *)
  ReadFile : string → string + string;        (* ioutil.ReadFile, or the error *)
  Fields : string → list string;              (* strings.Fields *)
  ParseInt : string → Z + string              (* strconv.ParseInt(s, 10, 64) *)
}.

Module Builds.
Import Regexp.

(** [[0-9a-f]] *)
Definition hex : regex := Alt (Range "0" "9") (Range "a" "f").

(** [^[0-9a-f]{7,40}(\+[0-9a-f]{1,10})?$] *)
Definition hashNameRe : regex :=
  Cat (Repeat 7 40 hex) (Opt (Cat (Char "+") (Repeat 1 10 hex))).

(** [^[0-9a-f]{40}$] *)
Definition fullHashRe : regex := Times 40 hex.

(** [^[0-9a-f]{40}(\+[0-9a-f]{10})?$] *)
Definition hashPlusRe : regex :=
  Cat (Times 40 hex) (Opt (Cat (Char "+") (Times 10 hex))).

Record commit : Type := mkCommit {
  authorDate : Time;
  topLine : string
}.

(** [commit_] is the field [commit *commit]; [None] is [nil]. *)
Record buildInfo : Type := mkBuildInfo {
  path : string;
  commitHash : string;
  deltaHash : string;
  names : list string;
  commit_ : option commit
}.

Definition fullName (i : buildInfo) : string :=
  if decide (deltaHash i = EmptyString) then commitHash i
  else commitHash i +:+ "+" +:+ deltaHash i.

(** [s[:7]], a panic when [s] is shorter. *)
Definition first7 (s : string) : Outcome string :=
  if decide (7 ≤ String.length s) then Ok (String.substring 0 7 s)
  else Panicked.

Definition shortName (i : buildInfo) : Outcome string :=
  if decide (deltaHash i = EmptyString) then first7 (commitHash i)
  else h ← first7 (commitHash i); Ok (h +:+ "+" +:+ deltaHash i).

(** [listFlags]: [1 << iota]. *)
Definition listNames : Z := 1.
Definition listCommit : Z := 2.

Section WithSys.
Context `{Sys}.

(** One iteration of the loop of [parseCommit] over the lines from [line]
    on; [rest] are the lines after it. *)
Fixpoint parseCommitLoop (ls : list string) (out : commit) : Outcome commit :=
  match ls with
  | [] => Ok out
  | line :: rest =>
      out1 ← (if HasPrefix line "author " then
                let fs := Fields line in
                if decide (2 ≤ length fs) then
                  f ← index fs (length fs - 2);
                  match ParseInt f with
                  | inr err => Fatal ("malformed author in commit: " +:+ err)
                  | inl secs => Ok (mkCommit (Unix secs 0) (topLine out))
                  end
                else Panicked
              else Ok out);
      if decide (String.length line = 0) then
        next ← index rest 0;
        Ok (mkCommit (authorDate out1) next)
      else parseCommitLoop rest out1
  end.

Definition parseCommit (obj : string) : Outcome commit :=
  parseCommitLoop (lines obj) (mkCommit TimeZero EmptyString).

(** The slice [builds] of pointers and the map [baseMap] to the same
    pointers: a pointer is the position of its build in [builds]; [None] is
    the [nil] map. *)
Record ListState : Type := mkListState {
  builds : list buildInfo;
  baseMap : option (gmap string nat)
}.

(** The body of the first loop of [listBuilds] (lines 113 to 134). *)
Definition listStep (flags : Z) (file : FileInfo) (st : ListState)
  : Outcome ListState :=
  if negb (IsDir file) || negb (MatchString hashPlusRe (Name file)) then Ok st
  else
    let nameParts := SplitN2 "+" (Name file) in
    h ← index nameParts 0;
    d ← (if decide (1 < length nameParts) then index nameParts 1
         else Ok EmptyString);
    let bm := (λ m, <[Name file := length (builds st)]> m) <$> baseMap st in
    c ← (if decide (Z.land flags listCommit ≠ 0%Z) then
           match ReadFile (Join [verDir; Name file; "commit"]) with
           | inr err => Fatal err
           | inl obj => c ← parseCommit obj; Ok (Some c)
           end
         else Ok None);
    Ok (mkListState
          (builds st ++ [mkBuildInfo (Join [verDir; Name file]) h d [] c])
          bm).

Definition addName (name : string) (b : buildInfo) : buildInfo :=
  mkBuildInfo (path b) (commitHash b) (deltaHash b) (names b ++ [name])
              (commit_ b).

(** The body of the second loop of [listBuilds] (lines 140 to 148). *)
Definition nameStep (file : FileInfo) (st : ListState) : Outcome ListState :=
  if IsSymlink file then
    match Readlink (Join [verDir; Name file]) with
    | None => Ok st
    | Some base =>
        match baseMap st ≫= (λ m, m !! base) with
        | Some info =>
            Ok (mkListState (alter (addName (Name file)) info (builds st))
                            (baseMap st))
        | None => Ok st
        end
    end
  else Ok st.

(** [listBuilds]: the builds, or the error it returns. *)
Definition listBuilds (flags : Z) : Outcome (list buildInfo + string) :=
  match ReadDir verDir with
  | NotExist => Ok (inl [])
  | ReadDirError err => Ok (inr err)
  | Entries files =>
      let baseMap0 :=
        if decide (Z.land flags listNames ≠ 0%Z) then Some ∅ else None in
      st ← forEachO (listStep flags) files (mkListState [] baseMap0);
      st ← (if decide (Z.land flags listNames ≠ 0%Z)
            then forEachO nameStep files st else Ok st);
      Ok (inl (builds st))
  end.

(** The body of the loop of [resolveName] (lines 44 to 58). *)
Definition resolveStep (name : string) (nameParts : list string)
    (b : buildInfo) (found : string) : Outcome string :=
  p0 ← index nameParts 0;
  if negb (HasPrefix (commitHash b) p0) then Ok found else
  if negb (eqb (bool_decide (length nameParts = 1))
               (bool_decide (deltaHash b = EmptyString))) then Ok found else
  skip ← (if decide (1 < length nameParts) then
            p1 ← index nameParts 1; Ok (negb (HasPrefix (deltaHash b) p1))
          else Ok false);
  if (skip : bool) then Ok found else
  if decide (found ≠ EmptyString)
  then Fatal ("ambiguous name `" +:+ name +:+ "`")
  else Ok (fullName b).

(** [resolveName]: the path and whether it exists. *)
Definition resolveName (name : string) : Outcome (string * bool) :=
  let savePath := Join [verDir; name] in
  match Stat savePath with
  | Some true => Ok (savePath, true)
  | _ =>
      if MatchString hashNameRe name then
        let nameParts := SplitN2 "+" name in
        r ← listBuilds 0;
        match r with
        | inr err => Fatal err
        | inl bs =>
            found ← forEachO (resolveStep name nameParts) bs EmptyString;
            if decide (found ≠ EmptyString)
            then Ok (Join [verDir; found], true)
            else Ok (savePath, false)
        end
      else Ok (savePath, false)
  end.

End WithSys.

(** *** The vocabulary of the properties *)

(** The build [listBuilds] records for the directory [name]. *)
Definition buildOf `{Sys} (name : string) : buildInfo :=
  match cutAt "+" name with
  | Some (h, d) => mkBuildInfo (Join [verDir; name]) h d [] None
  | None => mkBuildInfo (Join [verDir; name]) name EmptyString [] None
  end.

(** A directory entry that is a saved build. *)
Definition isBuildDir (file : FileInfo) : bool :=
  IsDir file && MatchString hashPlusRe (Name file).

(** The name, split at its first [+], selects the build: the commit part is
    a prefix of the commit hash, the name has a delta part exactly when the
    build has a delta hash, and that part is a prefix of the delta hash. *)
Definition selects (nameParts : list string) (b : buildInfo) : bool :=
  match nameParts with
  | [p0] => HasPrefix (commitHash b) p0
            && bool_decide (deltaHash b = EmptyString)
  | [p0; p1] => HasPrefix (commitHash b) p0
                && negb (bool_decide (deltaHash b = EmptyString))
                && HasPrefix (deltaHash b) p1
  | _ => false
  end.

(** The directory entries that are saved builds, in the order of the
    listing. *)
Definition buildDirs (files : list FileInfo) : list FileInfo :=
  filter (λ f, isBuildDir f) files.

(** The names of the symbolic links of the listing that point to [target]. *)
Definition linksTo `{Sys} (files : list FileInfo) (target : string)
  : list string :=
  Name <$> filter (λ f, IsSymlink f
                        ∧ Readlink (Join [verDir; Name f]) = Some target)
                  files.

Definition withNames (ns : list string) (b : buildInfo) : buildInfo :=
  mkBuildInfo (path b) (commitHash b) (deltaHash b) ns (commit_ b).

(** [baseMap] once the directories [ns] got the positions from [k] on. *)
Fixpoint indexFrom (ns : list string) (k : nat) (m : gmap string nat)
  : gmap string nat :=
  match ns with
  | [] => m
  | x :: ns' => indexFrom ns' (S k) (<[x := k]> m)
  end.

(** A name of 7 to 40 hexadecimal digits, or such a name, a [+] and 1 to 10
    hexadecimal digits. *)
Definition isHashName (s : string) : Prop :=
  (7 ≤ String.length s ≤ 40 ∧ allChars isHex s = true)
  ∨ ∃ h d, s = h +:+ "+" +:+ d
           ∧ (7 ≤ String.length h ≤ 40 ∧ allChars isHex h = true)
           ∧ (1 ≤ String.length d ≤ 10 ∧ allChars isHex d = true).

(** A name of 40 hexadecimal digits, or such a name, a [+] and 10
    hexadecimal digits. *)
Definition isHashPlus (s : string) : Prop :=
  hexDigits 40 s
  ∨ ∃ h d, s = h +:+ "+" +:+ d ∧ hexDigits 40 h ∧ hexDigits 10 d.

End Builds.

(** ** A small version directory to evaluate the package on *)

Module SampleFS.
Import Builds.

Definition isSpace (c : ascii) : bool :=
  bool_decide (nat_of_ascii c ∈ [9; 10; 11; 12; 13; 32]).

(** The fields of a text of ASCII bytes: the pieces between runs of white
    space.  [cur] is the field being read. *)
Fixpoint fieldsFrom (s : string) (cur : option string) : list string :=
  match s with
  | EmptyString => match cur with Some f => [f] | None => [] end
  | String c s' =>
      if isSpace c then
        match cur with
        | Some f => f :: fieldsFrom s' None
        | None => fieldsFrom s' None
        end
      else
        fieldsFrom s' (Some (match cur with
                             | Some f => f +:+ String c EmptyString
                             | None => String c EmptyString
                             end))
  end.

Fixpoint digitsFrom (s : string) (acc : Z) : option Z :=
  match s with
  | EmptyString => Some acc
  | String c s' =>
      if (48 <=? nat_of_ascii c) && (nat_of_ascii c <=? 57)
      then digitsFrom s' (10 * acc + Z.of_nat (nat_of_ascii c - 48))%Z
      else None
  end.

(** A decimal number of 64 bits with an optional sign. *)
Definition parseInt (s : string) : Z + string :=
  let '(neg, body) :=
    match s with
    | String "-" r => (true, r)
    | String "+" r => (false, r)
    | _ => (false, s)
    end in
  match body with
  | EmptyString => inr "invalid syntax"
  | _ =>
      match digitsFrom body 0 with
      | None => inr "invalid syntax"
      | Some v =>
          let v' := if neg then (- v)%Z else v in
          if ((- 2 ^ 63 <=? v') && (v' <? 2 ^ 63))%Z then inl v'
          else inr "value out of range"
      end
  end.

Fixpoint joinPath (parts : list string) : string :=
  match parts with
  | [] => EmptyString
  | [p] => p
  | p :: ps => p +:+ "/" +:+ joinPath ps
  end.

Definition hashA : string := "0123456789abcdef0123456789abcdef01234567".
Definition hashB : string := "0123456fedcba9876543210fedcba9876543210f".
Definition nameAd : string := hashA +:+ "+00112233aa".

Definition files : list FileInfo :=
  [mkFileInfo hashA true false;
   mkFileInfo nameAd true false;
   mkFileInfo hashB true false;
   mkFileInfo "latest" false true;
   mkFileInfo "mine" false true;
   mkFileInfo "stale" false true;
   mkFileInfo "tmp" true false;
   mkFileInfo "0123456789abcdef0123456789abcdef0123456z" true false;
   mkFileInfo "fedcba9876543210fedcba9876543210fedcba98" false false].

Definition commitA : string :=
  "tree 9d1b" +:+ nl
  +:+ "author A U Thor <author@example.com> 1469000000 -0400" +:+ nl
  +:+ "committer C O Mitter <committer@example.com> 1469000100 -0400" +:+ nl
  +:+ nl
  +:+ "runtime: fix the frobnicator" +:+ nl
  +:+ nl
  +:+ "author of the bug unknown" +:+ nl.

#[global] Instance sys : Sys := {|
  verDir := "/v";
  Join := joinPath;
  Stat := λ p,
    if bool_decide (p ∈ ["/v/" +:+ hashA; "/v/" +:+ nameAd; "/v/" +:+ hashB;
                         "/v/latest"; "/v/mine"; "/v/tmp"])
    then Some true
    else if bool_decide (p = "/v/fedcba9876543210fedcba9876543210fedcba98")
         then Some false else None;
  ReadDir := λ p, if bool_decide (p = "/v") then Entries files else NotExist;
  Readlink := λ p,
    if bool_decide (p = "/v/latest") then Some hashA
    else if bool_decide (p = "/v/mine") then Some nameAd
    else if bool_decide (p = "/v/stale") then Some "gone"
    else None;
  ReadFile := λ p,
    if bool_decide (p = "/v/" +:+ hashA +:+ "/commit") then inl commitA
    else inr "no such file";
  Fields := λ s, fieldsFrom s None;
  ParseInt := parseInt
|}.

(** The same system before any build was saved: the version directory does
    not exist. *)
Definition sysNone : Sys := {|
  verDir := "/v";
  Join := joinPath;
  Stat := λ _, None;
  ReadDir := λ _, NotExist;
  Readlink := λ _, None;
  ReadFile := λ _, inr "no such file";
  Fields := λ s, fieldsFrom s None;
  ParseInt := parseInt
|}.

Definition dirA : FileInfo := mkFileInfo hashA true false.
Definition dirAd : FileInfo := mkFileInfo nameAd true false.

(** The commit object [commitA] with another body, and two objects without
    message. *)
Definition commitA' : string :=
  "tree 9d1b" +:+ nl
  +:+ "author A U Thor <author@example.com> 1469000000 -0400" +:+ nl
  +:+ "committer C O Mitter <committer@example.com> 1469000100 -0400" +:+ nl
  +:+ nl
  +:+ "runtime: fix the frobnicator" +:+ nl
  +:+ "author Some One <one@example.com> 7 +0000".

Definition headerOnly : string := "tree 9d1b" +:+ nl +:+ "parent 77aa".

End SampleFS.

(** ** More vocabulary for runs of the checker *)

Section RunSpec.
Context `{Decls}.

(** The outcome sets after every model was evaluated on [p]. *)
Definition evaluated (p : Prog) (outs : list OutcomeSet) : list OutcomeSet :=
  zip_with (λ m o, Eval m p o) models outs.

(** The first program of [ps] on which model [i] permits a proper superset
    of what model [j] permits, the outcome sets being [outs] before the
    first program. *)
Fixpoint firstWitness (i j : nat) (ps : list Prog) (outs : list OutcomeSet)
  : option Prog :=
  match ps with
  | [] => None
  | p :: ps' =>
      match evaluated p outs !! i, evaluated p outs !! j with
      | Some oi, Some oj =>
          if properSuperset oi oj then Some p
          else firstWitness i j ps' (evaluated p outs)
      | _, _ => firstWitness i j ps' (evaluated p outs)
      end
  end.

End RunSpec.

(** The diagnostics of a run. *)
Definition isStderr (e : Event) : bool :=
  match e with
  | EvStderr _ => true
  | _ => false
  end.

Definition stderrEvents (tr : list Event) : list Event :=
  filter (λ e, isStderr e) tr.

(** The progress line for a count of programs. *)
Definition progressLine (k : nat) : Event :=
  EvStderr (cr +:+ pretty (Z.of_nat k) +:+ " progs").

(** ** The comparator *)

Section ComparatorFacts.
Context `{Decls}.
Implicit Types (t : Table) (p c : Prog) (outs : list OutcomeSet).

Lemma square_insert k t i j p row :
  square k t → t !! i = Some row → square k (<[i := <[j := p]> row]> t).
Proof.
  intros [Hlen Hrows] Hrow. split; [by rewrite length_insert|].
  apply Forall_insert; [done|]. rewrite length_insert.
  by eapply (Forall_lookup_1 _ _ _ _ Hrows).
Qed.

Lemma square_lookup k t i :
  square k t → i < k → ∃ row, t !! i = Some row ∧ length row = k.
Proof.
  intros [Hlen Hrows] Hi.
  destruct (lookup_lt_is_Some_2 t i) as [row Hrow]; [lia|].
  exists row. split; [done|]. by eapply (Forall_lookup_1 _ _ _ _ Hrows).
Qed.

Lemma getCell_insert t i j p row a b :
  t !! i = Some row → j < length row →
  getCell (<[i := <[j := p]> row]> t) a b
  = if decide (a = i ∧ b = j) then Some p else getCell t a b.
Proof.
  intros Hrow Hj. unfold getCell.
  pose proof (lookup_lt_Some _ _ _ Hrow) as Hi.
  destruct (decide (a = i)) as [->|Hai].
  - rewrite list_lookup_insert_eq by done. simpl.
    destruct (decide (b = j)) as [->|Hbj].
    + rewrite list_lookup_insert_eq by done. by rewrite decide_True.
    + rewrite list_lookup_insert_ne by done. rewrite Hrow. simpl.
      rewrite decide_False; [done|]. by intros [_ ?].
  - rewrite list_lookup_insert_ne by done.
    rewrite decide_False; [done|]. by intros [? _].
Qed.

Lemma getCell_ge k t a b : square k t → k ≤ b → getCell t a b = None.
Proof.
  intros [Hlen Hrows] Hb. unfold getCell.
  destruct (t !! a) as [row|] eqn:Hrow; [simpl|done].
  apply lookup_ge_None_2.
  rewrite (Forall_lookup_1 _ _ _ _ Hrows Hrow). lia.
Qed.

Lemma newCell_diag p outs i c : newCell p outs i i c = c.
Proof.
  unfold newCell. destruct (outs !! i); [|done].
  rewrite bool_decide_false; [done|]. naive_solver.
Qed.

(** One iteration of the inner loop touches its own cell only, and sets it as
    [newCell] says. *)
Lemma compareCell_spec k p outs i j t :
  square k t → length outs = k → i < k → j < k →
  ∃ t', compareCell p outs i j t = Some t' ∧ square k t'
        ∧ ∀ a b, getCell t' a b
                 = if decide (a = i ∧ b = j)
                   then newCell p outs i j <$> getCell t a b
                   else getCell t a b.
Proof.
  intros Hsq Houts Hi Hj. unfold compareCell.
  destruct (square_lookup k t i Hsq Hi) as (row & Hrow & Hlen).
  destruct (lookup_lt_is_Some_2 row j) as [c Hc]; [lia|].
  destruct (lookup_lt_is_Some_2 outs i) as [oi Hoi]; [lia|].
  destruct (lookup_lt_is_Some_2 outs j) as [oj Hoj]; [lia|].
  assert (Hcell : getCell t i j = Some c).
  { unfold getCell. rewrite Hrow. done. }
  assert (Hkeep : newCell p outs i j c = c →
    ∃ t', Some t = Some t' ∧ square k t'
          ∧ ∀ a b, getCell t' a b
                   = if decide (a = i ∧ b = j)
                     then newCell p outs i j <$> getCell t a b
                     else getCell t a b).
  { intros Hsame. exists t. split_and!; [done..|]. intros a b.
    case_decide as Hab; [|done]. destruct Hab as [-> ->].
    rewrite Hcell. simpl. by rewrite Hsame. }
  destruct (decide (i = j)) as [->|Hij].
  { apply Hkeep, newCell_diag. }
  rewrite Hrow. simpl. rewrite Hc. simpl.
  assert (Hnew : newCell p outs i j c
                 = if cellEmpty c && properSuperset oi oj then p else c).
  { unfold newCell. rewrite Hoi, Hoj. by rewrite bool_decide_true. }
  unfold cellEmpty, properSuperset in Hnew.
  destruct (decide (Type_ (elem0 (Ops (elem0 (Threads c)))) ≠ OpExit))
    as [Hne|Hexit].
  { apply Hkeep. rewrite Hnew. by rewrite bool_decide_false. }
  apply dec_stable in Hexit.
  rewrite bool_decide_true in Hnew by done.
  rewrite Hoi. simpl. rewrite Hoj. simpl.
  destruct (decide (oi = oj)) as [Heq|Heq].
  { apply Hkeep. rewrite Hnew. rewrite bool_decide_true by done.
    by rewrite andb_false_r. }
  rewrite bool_decide_false in Hnew by done.
  destruct (Contains oi oj) eqn:Hcont; simpl in Hnew.
  - eexists. split_and!; [done|by apply square_insert|].
    intros a b. rewrite getCell_insert by (done || lia).
    case_decide as Hab; [|done]. destruct Hab as [-> ->].
    rewrite Hcell. simpl. by rewrite Hnew.
  - by apply Hkeep.
Qed.

(** The inner loop over the columns [js] of row [i]. *)
Lemma compareCells_spec k p outs i js :
  length outs = k → i < k → NoDup js → Forall (λ j, j < k) js →
  ∀ t, square k t →
  ∃ t', forRange (compareCell p outs i) js t = Some t' ∧ square k t'
        ∧ ∀ a b, getCell t' a b
                 = if decide (a = i ∧ b ∈ js)
                   then newCell p outs i b <$> getCell t a b
                   else getCell t a b.
Proof.
  intros Houts Hi. induction js as [|j js IH]; intros Hnd Hlt t Hsq.
  - exists t. split_and!; [done..|]. intros a b.
    rewrite decide_False; [done|]. set_solver.
  - apply NoDup_cons in Hnd as [Hj Hnd]. apply Forall_cons in Hlt as [Hjk Hlt].
    destruct (compareCell_spec k p outs i j t) as (t1 & Hstep & Hsq1 & Hcells1);
      [done..|].
    destruct (IH Hnd Hlt t1 Hsq1) as (t' & Hrest & Hsq' & Hcells').
    exists t'. split_and!; [|done|].
    { simpl. rewrite Hstep. done. }
    intros a b. rewrite Hcells', Hcells1.
    repeat case_decide; try done; set_solver.
Qed.

Lemma compareRow_spec k p outs i t :
  length outs = k → i < k → square k t →
  ∃ t', compareRow p outs i t = Some t' ∧ square k t'
        ∧ ∀ a b, getCell t' a b
                 = if decide (a = i)
                   then newCell p outs a b <$> getCell t a b
                   else getCell t a b.
Proof.
  intros Houts Hi Hsq. unfold compareRow.
  destruct (square_lookup k t i Hsq Hi) as (row & Hrow & Hlen).
  rewrite Hrow. simpl. rewrite Hlen.
  destruct (compareCells_spec k p outs i (seq 0 k)) with (t := t)
    as (t' & Hrun & Hsq' & Hcells); [done|done|apply NoDup_seq| |done|].
  { apply Forall_forall. intros j Hj%elem_of_seq. lia. }
  exists t'. split_and!; [done..|]. intros a b. rewrite Hcells.
  destruct (decide (a = i)) as [->|Hai].
  - case_decide as Hb; [done|].
    assert (k ≤ b) as Hge.
    { destruct (decide (b < k)); [|lia]. exfalso. apply Hb. split; [done|].
      apply elem_of_seq. lia. }
    by rewrite (getCell_ge k t i b).
  - rewrite decide_False; [done|]. naive_solver.
Qed.

(** The outer loop over the rows [is]. *)
Lemma compareRows_spec k p outs rows :
  length outs = k → NoDup rows → Forall (λ i, i < k) rows →
  ∀ t, square k t →
  ∃ t', forRange (compareRow p outs) rows t = Some t' ∧ square k t'
        ∧ ∀ a b, getCell t' a b
                 = if decide (a ∈ rows)
                   then newCell p outs a b <$> getCell t a b
                   else getCell t a b.
Proof.
  intros Houts. induction rows as [|i rows IH]; intros Hnd Hlt t Hsq.
  - exists t. split_and!; [done..|]. intros a b.
    rewrite decide_False; [done|]. set_solver.
  - apply NoDup_cons in Hnd as [Hi Hnd]. apply Forall_cons in Hlt as [Hik Hlt].
    destruct (compareRow_spec k p outs i t) as (t1 & Hstep & Hsq1 & Hcells1);
      [done..|].
    destruct (IH Hnd Hlt t1 Hsq1) as (t' & Hrest & Hsq' & Hcells').
    exists t'. split_and!; [|done|].
    { simpl. rewrite Hstep. done. }
    intros a b. rewrite Hcells', Hcells1.
    repeat case_decide; try done; set_solver.
Qed.

(** The comparator as a whole: every cell becomes what [newCell] says. *)
Lemma compareAll_spec k p outs t :
  length outs = k → square k t →
  ∃ t', compareAll p outs t = Some t' ∧ square k t'
        ∧ ∀ a b, getCell t' a b = newCell p outs a b <$> getCell t a b.
Proof.
  intros Houts Hsq. unfold compareAll.
  pose proof Hsq as [Hlen _]. rewrite Hlen.
  destruct (compareRows_spec k p outs (seq 0 k)) with (t := t)
    as (t' & Hrun & Hsq' & Hcells); [done|apply NoDup_seq| |done|].
  { apply Forall_forall. intros j Hj%elem_of_seq. lia. }
  exists t'. split_and!; [done..|]. intros a b. rewrite Hcells.
  case_decide as Ha; [done|].
  unfold getCell. rewrite (lookup_ge_None_2 t a); [done|].
  rewrite Hlen. destruct (decide (a < k)); [|lia]. exfalso. apply Ha.
  apply elem_of_seq. lia.
Qed.

End ComparatorFacts.

(** ** One iteration and the whole run *)

Section RunFacts.
Context `{Decls}.
Implicit Types (t : Table) (p c : Prog) (st : State).

Lemma evalModels_spec p (outs : list OutcomeSet) :
  length outs = length models →
  evalModels p outs = Some (zip_with (λ m o, Eval m p o) models outs).
Proof.
  intros Hlen. destruct outs as [|o0 [|o1 [|o2 [|]]]]; try done.
Qed.

Lemma wfState_init : wfState initState.
Proof.
  split; [done|]. split; [done|]. unfold makeTable. simpl.
  repeat constructor.
Qed.

(** An iteration never panics on a well-shaped state; it evaluates every
    model on the program and hands the results to the comparator. *)
Lemma advance_spec p st :
  wfState st →
  ∃ st', advance p st = Some st' ∧ wfState st'
         ∧ n st' = wrap64 (n st + 1)
         ∧ outcomes st' = zip_with (λ m o, Eval m p o) models (outcomes st)
         ∧ ∀ a b, getCell (counterexamples st') a b
                  = newCell p (outcomes st') a b
                      <$> getCell (counterexamples st) a b.
Proof.
  intros [Houts Hsq]. unfold advance.
  rewrite (evalModels_spec p _ Houts).
  remember (zip_with (λ m o, Eval m p o) models (outcomes st)) as outs
    eqn:Hzip.
  assert (Hlen : length outs = length models).
  { rewrite Hzip, length_zip_with. lia. }
  simpl.
  destruct (compareAll_spec _ p outs _ Hlen Hsq) as (t' & Hrun & Hsq' & Hcells).
  rewrite Hrun. simpl. eexists. split_and!; done.
Qed.

Lemma stateAfter_cons p ps st :
  stateAfter (p :: ps) st = advance p st ≫= stateAfter ps.
Proof.
  unfold stateAfter. simpl. destruct (advance p st) as [st1|]; [done|].
  simpl. induction ps as [|q ps IH]; [done|]. by simpl.
Qed.

Lemma stateAfter_app ps1 ps2 st st1 :
  stateAfter ps1 st = Some st1 →
  stateAfter (ps1 ++ ps2) st = stateAfter ps2 st1.
Proof.
  unfold stateAfter. intros Hrun. by rewrite foldl_app, Hrun.
Qed.

(** The run never panics and keeps the shape of the state. *)
Lemma stateAfter_wf ps st :
  wfState st → ∃ st', stateAfter ps st = Some st' ∧ wfState st'.
Proof.
  revert st. induction ps as [|p ps IH]; intros st Hwf.
  - by exists st.
  - destruct (advance_spec p st Hwf) as (st1 & Hadv & Hwf1 & _).
    destruct (IH st1 Hwf1) as (st' & Hrun & Hwf').
    exists st'. split; [|done]. by rewrite stateAfter_cons, Hadv.
Qed.

(** A property of a cell that every iteration preserves is preserved by the
    run. *)
Lemma stateAfter_cell_inv (P : option Prog → Prop) a b :
  (∀ p st st', wfState st → advance p st = Some st' →
     P (getCell (counterexamples st) a b) →
     P (getCell (counterexamples st') a b)) →
  ∀ ps st st', wfState st → stateAfter ps st = Some st' →
     P (getCell (counterexamples st) a b) →
     P (getCell (counterexamples st') a b).
Proof.
  intros Hstep ps. induction ps as [|p ps IH]; intros st st' Hwf Hrun HP.
  - by injection Hrun as <-.
  - rewrite stateAfter_cons in Hrun.
    destruct (advance_spec p st Hwf) as (st1 & Hadv & Hwf1 & _).
    rewrite Hadv in Hrun. simpl in Hrun.
    apply (IH st1 st' Hwf1 Hrun). by apply (Hstep p st st1).
Qed.

Lemma newCell_nonempty p (outs : list OutcomeSet) i j c :
  cellEmpty c = false → newCell p outs i j c = c.
Proof.
  intros Hne. unfold newCell. destruct (outs !! i), (outs !! j); try done.
  by rewrite Hne, andb_false_r.
Qed.

(** An iteration leaves a cell that holds a witness as it is. *)
Lemma advance_keeps_witness p st st' i j c :
  wfState st → advance p st = Some st' →
  getCell (counterexamples st) i j = Some c → cellEmpty c = false →
  getCell (counterexamples st') i j = Some c.
Proof.
  intros Hwf Hadv Hcell Hne.
  destruct (advance_spec p st Hwf) as (st1 & Hadv1 & _ & _ & _ & Hcells).
  rewrite Hadv in Hadv1. injection Hadv1 as <-.
  rewrite Hcells, Hcell. simpl. by rewrite newCell_nonempty.
Qed.

(** An iteration leaves the diagonal as it is. *)
Lemma advance_keeps_diagonal p st st' i :
  wfState st → advance p st = Some st' →
  getCell (counterexamples st') i i = getCell (counterexamples st) i i.
Proof.
  intros Hwf Hadv.
  destruct (advance_spec p st Hwf) as (st1 & Hadv1 & _ & _ & _ & Hcells).
  rewrite Hadv in Hadv1. injection Hadv1 as <-.
  rewrite Hcells. destruct (getCell (counterexamples st) i i); [|done].
  simpl. by rewrite newCell_diag.
Qed.

Lemma getCell_lt t k i j c :
  square k t → getCell t i j = Some c → i < k ∧ j < k.
Proof.
  intros [Hlen Hrows] Hcell. unfold getCell in Hcell.
  destruct (t !! i) as [row|] eqn:Hrow; [|done]. simpl in Hcell.
  pose proof (lookup_lt_Some _ _ _ Hrow).
  pose proof (lookup_lt_Some _ _ _ Hcell).
  rewrite (Forall_lookup_1 _ _ _ _ Hrows Hrow) in *. lia.
Qed.

(** C1: for a program [p] and an ordered pair [(i, j)] of distinct models
    whose cell is still empty, the iteration evaluates both models on [p] and
    leaves [p] in the cell exactly when the outcome set of model [i] is a
    proper superset of that of model [j]; otherwise the cell keeps its
    content. *)
Theorem comparator_records_proper_superset p st i j c :
  wfState st → i ≠ j →
  getCell (counterexamples st) i j = Some c → cellEmpty c = true →
  ∃ st' mi mj oi oj,
    advance p st = Some st'
    ∧ models !! i = Some mi ∧ models !! j = Some mj
    ∧ outcomes st !! i = Some oi ∧ outcomes st !! j = Some oj
    ∧ outcomes st' !! i = Some (Eval mi p oi)
    ∧ outcomes st' !! j = Some (Eval mj p oj)
    ∧ getCell (counterexamples st') i j
      = Some (if properSuperset (Eval mi p oi) (Eval mj p oj) then p else c).
Proof.
  intros Hwf Hij Hcell Hempty.
  destruct (advance_spec p st Hwf) as (st' & Hadv & _ & _ & Houts & Hcells).
  pose proof Hwf as [Hlen Hsq].
  destruct (getCell_lt _ _ _ _ _ Hsq Hcell) as [Hi Hj].
  destruct (lookup_lt_is_Some_2 models i Hi) as [mi Hmi].
  destruct (lookup_lt_is_Some_2 models j Hj) as [mj Hmj].
  destruct (lookup_lt_is_Some_2 (outcomes st) i) as [oi Hoi]; [lia|].
  destruct (lookup_lt_is_Some_2 (outcomes st) j) as [oj Hoj]; [lia|].
  assert (Hi' : outcomes st' !! i = Some (Eval mi p oi)).
  { rewrite Houts, lookup_zip_with, Hmi. simpl. by rewrite Hoi. }
  assert (Hj' : outcomes st' !! j = Some (Eval mj p oj)).
  { rewrite Houts, lookup_zip_with, Hmj. simpl. by rewrite Hoj. }
  exists st', mi, mj, oi, oj. split_and!; try done.
  rewrite Hcells, Hcell. simpl. unfold newCell. rewrite Hi', Hj', Hempty.
  by rewrite bool_decide_true.
Qed.

(** C2: once a cell holds a witness (its first operation is not [OpExit]),
    no program generated later overwrites it: the cell holds that same
    program after any continuation of the run. *)
Theorem witness_never_overwritten ps1 ps2 st1 i j c :
  stateAfter ps1 initState = Some st1 →
  getCell (counterexamples st1) i j = Some c → cellEmpty c = false →
  ∃ st2, stateAfter (ps1 ++ ps2) initState = Some st2
         ∧ getCell (counterexamples st2) i j = Some c.
Proof.
  intros Hrun1 Hcell Hne.
  destruct (stateAfter_wf ps1 initState wfState_init) as (st1' & Hrun1' & Hwf1).
  rewrite Hrun1 in Hrun1'. injection Hrun1' as <-.
  destruct (stateAfter_wf ps2 st1 Hwf1) as (st2 & Hrun2 & _).
  exists st2. split; [by rewrite (stateAfter_app _ _ _ _ Hrun1)|].
  apply (stateAfter_cell_inv (λ o, o = Some c) i j) with (ps := ps2) (st := st1);
    [|done..].
  intros p st st' Hwf Hadv Hc. by eapply advance_keeps_witness.
Qed.

End RunFacts.

(** ** Texts *)

Lemma string_app_nil_r (s : string) : s +:+ EmptyString = s.
Proof.
  induction s as [|c s IH]; [done|].
  change (String c (s +:+ EmptyString) = String c s). by rewrite IH.
Qed.

Lemma string_app_assoc (s1 s2 s3 : string) :
  (s1 +:+ s2) +:+ s3 = s1 +:+ (s2 +:+ s3).
Proof.
  induction s1 as [|c s1 IH]; [done|].
  change (String c ((s1 +:+ s2) +:+ s3) = String c (s1 +:+ (s2 +:+ s3))).
  by rewrite IH.
Qed.

Lemma lines_nonempty (s : string) : ∃ l ls, lines s = l :: ls.
Proof.
  induction s as [|c s (l & ls & IH)]; simpl; [by eauto|].
  case_decide; [by eauto|]. rewrite IH. by eauto.
Qed.

Lemma replaceNewlines_lines (s : string) l ls :
  lines s = l :: ls → replaceNewlines s = l +:+ commentedTail ls.
Proof.
  revert l ls. induction s as [|c s IH]; intros l ls Hl; simpl in *.
  - by injection Hl as <- <-.
  - destruct (lines_nonempty s) as (l' & ls' & Hs). rewrite Hs in Hl.
    specialize (IH l' ls' Hs). case_decide.
    + injection Hl as <- <-. by rewrite IH.
    + injection Hl as <- <-. by rewrite IH.
Qed.

Lemma joinLines_commented l ls :
  joinLines (map (λ l, "# " +:+ l) (l :: ls)) = "# " +:+ l +:+ commentedTail ls.
Proof.
  revert l. induction ls as [|l' ls IH]; intros l.
  - simpl. by rewrite !string_app_nil_r.
  - change (joinLines (map (λ l, "# " +:+ l) (l :: l' :: ls)))
      with (("# " +:+ l) +:+ nl
              +:+ joinLines (map (λ l, "# " +:+ l) (l' :: ls))).
    rewrite IH. simpl. by rewrite !string_app_assoc.
Qed.

(** Replacing every newline by a newline and the comment prefix, after one
    prefix in front, prefixes every line of the text. *)
Lemma replaceNewlines_commentText (s : string) :
  "# " +:+ replaceNewlines s +:+ nl = commentText s.
Proof.
  unfold commentText. destruct (lines_nonempty s) as (l & ls & Hs).
  rewrite Hs, joinLines_commented, (replaceNewlines_lines s l ls Hs).
  simpl. by rewrite !string_app_assoc.
Qed.

(** ** The graph emitter *)

Section EmitterFacts.
Context `{Decls}.
Implicit Types (t : Table) (p c : Prog) (w : Dest).

Lemma emits_ret w : emits (mret tt) w [].
Proof. intros [tr k]. simpl. unfold mret, IO_ret. by rewrite app_nil_r. Qed.

Lemma emits_write w s : emits (emit (EvWrite w s)) w [s].
Proof. by intros wld. Qed.

Lemma emits_seq (m k : IO unit) w (xs ys : list string) :
  emits m w xs → emits k w ys → emits (m;; k) w (xs ++ ys).
Proof.
  intros Hm Hk wld. unfold mbind, IO_bind. rewrite Hm, Hk. simpl.
  by rewrite map_app, app_assoc.
Qed.

Lemma emits_eq (m : IO unit) w (xs ys : list string) :
  emits m w xs → xs = ys → emits m w ys.
Proof. by intros Hm <-. Qed.

Lemma graphCell_emits w i j mi mj p :
  models !! i = Some mi → models !! j = Some mj →
  emits (graphCell w i j p) w (cellChunks i j mi mj p).
Proof.
  intros Hmi Hmj. unfold graphCell, cellChunks, cellEmpty.
  destruct (decide (i = j)) as [Hij|Hij]; [apply emits_ret|].
  rewrite Hmi, Hmj.
  destruct (decide (Type_ (elem0 (Ops (elem0 (Threads p)))) = OpExit))
    as [Hexit|Hexit].
  - rewrite bool_decide_true by done. by intros wld.
  - rewrite bool_decide_false by done. intros wld.
    unfold mbind, IO_bind, orPanic, emit. simpl.
    rewrite <- replaceNewlines_commentText, <- app_assoc. done.
Qed.

Lemma square3_inv t :
  square 3 t →
  ∃ a0 a1 a2 b0 b1 b2 c0 c1 c2,
    t = [[a0; a1; a2]; [b0; b1; b2]; [c0; c1; c2]].
Proof.
  intros [Hlen Hrows].
  destruct t as [|ra [|rb [|rc [|]]]]; try done.
  apply Forall_cons in Hrows as [Ha Hrows].
  apply Forall_cons in Hrows as [Hb Hrows].
  apply Forall_cons in Hrows as [Hc _].
  destruct ra as [|a0 [|a1 [|a2 [|]]]]; try done.
  destruct rb as [|b0 [|b1 [|b2 [|]]]]; try done.
  destruct rc as [|c0 [|c1 [|c2 [|]]]]; try done.
  by repeat eexists.
Qed.

(** On a table with a row and a column per model, the emitter writes exactly
    the graph of the specification. *)
Lemma writeModelGraph_emits w t :
  square (length models) t → emits (writeModelGraph w t) w (graphSpec t).
Proof.
  intros Hsq.
  destruct (square3_inv t Hsq)
    as (a0 & a1 & a2 & b0 & b1 & b2 & c0 & c1 & c2 & ->).
  unfold writeModelGraph. simpl forEach.
  eapply emits_eq.
  { repeat first
      [ apply emits_seq
      | apply emits_write
      | apply emits_ret
      | eapply graphCell_emits; reflexivity ]. }
  unfold graphSpec, orderedPairs, pairChunks, cellChunks. simpl.
  rewrite <- !app_assoc. reflexivity.
Qed.

End EmitterFacts.

(** ** The driver *)

Section DriverFacts.
Context `{Decls}.
Variable createErr : nat → string → option string.
Implicit Types (t : Table) (p : Prog) (st : State) (wld : World).

(** A persistence either creates the file, writes the graph into it and
    closes it, or reports the error and exits with status 1. *)
Lemma snapshot_run flagOut t wld :
  square (length models) t →
  snapshot createErr flagOut t wld
  = match createErr (creates wld) flagOut with
    | None =>
        (mkWorld (trace wld ++ persistEvents flagOut t) (S (creates wld)),
         Val tt)
    | Some err =>
        (mkWorld (trace wld ++ [EvCreate flagOut false; EvStderr (err +:+ nl)])
                 (S (creates wld)),
         Stop (Exit 1))
    end.
Proof.
  intros Hsq. unfold snapshot, osCreate, mbind, IO_bind.
  destruct (createErr (creates wld) flagOut) as [err|].
  - unfold emit, osExit. simpl. by rewrite <- app_assoc.
  - rewrite (writeModelGraph_emits (File flagOut) t Hsq).
    cbv beta iota. unfold emit. cbn [trace creates].
    unfold persistEvents. by rewrite <- !app_assoc.
Qed.

Lemma loopBody_run flagOut p st st1 wld :
  wfState st → advance p st = Some st1 →
  loopBody createErr flagOut p st wld
  = if decide (Z.rem (n st1) 100 = 0%Z ∧ flagOut ≠ EmptyString) then
      match createErr (creates wld) flagOut with
      | None =>
          (mkWorld (trace wld ++ progressEvents st
                      ++ persistEvents flagOut (counterexamples st1))
                   (S (creates wld)),
           Val st1)
      | Some err =>
          (mkWorld (trace wld ++ progressEvents st
                      ++ [EvCreate flagOut false; EvStderr (err +:+ nl)])
                   (S (creates wld)),
           Stop (Exit 1))
      end
    else (mkWorld (trace wld ++ progressEvents st) (creates wld), Val st1).
Proof.
  intros Hwf Hadv.
  destruct (advance_spec p st Hwf) as (st1' & Hadv' & [_ Hsq] & _).
  rewrite Hadv in Hadv'. injection Hadv' as <-.
  unfold loopBody.
  set (wld1 := mkWorld (trace wld ++ progressEvents st) (creates wld)).
  assert (Hpre : ∀ A (k : IO A),
    ((if decide (Z.rem (n st) 10 = 0%Z)
      then emit (EvStderr (cr +:+ pretty (n st) +:+ " progs"))
      else mret tt);; k) wld = k wld1).
  { intros A k. unfold mbind, IO_bind, progressEvents in *.
    destruct (decide (Z.rem (n st) 10 = 0%Z)); simpl; [done|].
    unfold wld1. rewrite app_nil_r. by destruct wld. }
  rewrite Hpre. rewrite Hadv. unfold mbind, IO_bind at 1. simpl.
  destruct (decide (Z.rem (n st1) 100 = 0%Z ∧ flagOut ≠ EmptyString)).
  - unfold mbind, IO_bind. rewrite (snapshot_run flagOut _ wld1 Hsq). simpl.
    destruct (createErr (creates wld) flagOut); simpl;
      by rewrite <- app_assoc.
  - done.
Qed.

Lemma finish_run flagOut st wld :
  wfState st →
  finish createErr flagOut st wld
  = if decide (flagOut ≠ EmptyString) then
      match createErr (creates wld) flagOut with
      | None =>
          (mkWorld (trace wld
                      ++ [EvStderr (cr +:+ pretty (n st) +:+ " progs" +:+ nl)]
                      ++ persistEvents flagOut (counterexamples st))
                   (S (creates wld)),
           Val tt)
      | Some err =>
          (mkWorld (trace wld
                      ++ [EvStderr (cr +:+ pretty (n st) +:+ " progs" +:+ nl)]
                      ++ [EvCreate flagOut false; EvStderr (err +:+ nl)])
                   (S (creates wld)),
           Stop (Exit 1))
      end
    else
      (mkWorld (trace wld
                  ++ [EvStderr (cr +:+ pretty (n st) +:+ " progs" +:+ nl)]
                  ++ map (EvWrite Stdout) (graphSpec (counterexamples st)))
               (creates wld),
       Val tt).
Proof.
  intros [_ Hsq].
  change (finish createErr flagOut st)
    with (emit (EvStderr (cr +:+ pretty (n st) +:+ " progs" +:+ nl));;
          if decide (flagOut ≠ EmptyString)
          then snapshot createErr flagOut (counterexamples st)
          else writeModelGraph Stdout (counterexamples st)).
  unfold mbind, IO_bind, emit. cbv beta iota.
  destruct (decide (flagOut ≠ EmptyString)).
  - rewrite snapshot_run by done. cbn [trace creates].
    destruct (createErr (creates wld) flagOut); by rewrite <- app_assoc.
  - rewrite (writeModelGraph_emits Stdout _ Hsq). cbn [trace creates].
    by rewrite <- app_assoc.
Qed.

End DriverFacts.

(** ** Events of a run *)

Section TraceFacts.
Context `{Decls}.
Implicit Types (t : Table) (st : State) (tr : list Event).

Lemma existsb_failed_writes w (chunks : list string) :
  existsb isFailedCreate (map (EvWrite w) chunks) = false.
Proof. induction chunks as [|s chunks IH]; [done|]. by simpl. Qed.

Lemma existsb_failed_progress st :
  existsb isFailedCreate (progressEvents st) = false.
Proof. unfold progressEvents. by case_decide. Qed.

Lemma existsb_failed_persist path t :
  existsb isFailedCreate (persistEvents path t) = false.
Proof.
  unfold persistEvents. rewrite !existsb_app, existsb_failed_writes. done.
Qed.

Lemma targets_writes_stdout path (chunks : list string) :
  Forall (targets path) (map (EvWrite Stdout) chunks).
Proof. induction chunks as [|s chunks IH]; by constructor. Qed.

Lemma targets_writes_file path (chunks : list string) :
  Forall (targets path) (map (EvWrite (File path)) chunks).
Proof. induction chunks as [|s chunks IH]; by constructor. Qed.

Lemma targets_progress path st : Forall (targets path) (progressEvents st).
Proof. unfold progressEvents. case_decide; by repeat constructor. Qed.

Lemma targets_persist path t : Forall (targets path) (persistEvents path t).
Proof.
  unfold persistEvents. rewrite !Forall_app. split_and!.
  - by repeat constructor.
  - apply targets_writes_file.
  - by repeat constructor.
Qed.

Lemma graphEvents_app tr1 tr2 :
  graphEvents (tr1 ++ tr2) = graphEvents tr1 ++ graphEvents tr2.
Proof. apply filter_app. Qed.

Lemma graphEvents_writes w (chunks : list string) :
  graphEvents (map (EvWrite w) chunks) = map (EvWrite w) chunks.
Proof.
  induction chunks as [|s chunks IH]; [done|]. simpl.
  unfold graphEvents in *. rewrite filter_cons_True by done. by rewrite IH.
Qed.

Lemma graphEvents_progress st : graphEvents (progressEvents st) = [].
Proof. unfold progressEvents. by case_decide. Qed.

Lemma graphEvents_persist path t :
  graphEvents (persistEvents path t) = persistEvents path t.
Proof.
  unfold persistEvents. rewrite !graphEvents_app, graphEvents_writes. done.
Qed.

Lemma wrap64_small (z : Z) :
  (- 2 ^ 63 ≤ z < 2 ^ 63)%Z → wrap64 z = z.
Proof. intros Hz. unfold wrap64. rewrite Z.mod_small; lia. Qed.

Lemma rem_100_nat (k : nat) :
  Z.rem (Z.of_nat k) 100 = 0%Z ↔ k mod 100 = 0.
Proof.
  rewrite Z.rem_mod_nonneg by lia.
  change 100%Z with (Z.of_nat 100). rewrite <- Nat2Z.inj_mod. lia.
Qed.

Lemma bind_ext_Forall {A B : Type} (f g : A → list B) (l : list A) :
  Forall (λ x, f x = g x) l → l ≫= f = l ≫= g.
Proof.
  induction 1 as [|x l Hx _ IH]; [done|]. by rewrite !bind_cons, Hx, IH.
Qed.

(** The persisted graphs of a run that starts with one more program. *)
Lemma snapshotsFrom_cons flagOut k0 p ps st st1 :
  advance p st = Some st1 →
  snapshotsFrom flagOut k0 (p :: ps) st
  = (if decide (S k0 mod 100 = 0)
     then persistEvents flagOut (counterexamples st1) else [])
      ++ snapshotsFrom flagOut (S k0) ps st1.
Proof.
  intros Hadv. unfold snapshotsFrom.
  change (length (p :: ps)) with (S (length ps)).
  change (seq (S k0) (S (length ps)))
    with (S k0 :: seq (S (S k0)) (length ps)).
  assert (Hrest :
    (filter (λ k, k mod 100 = 0) (seq (S (S k0)) (length ps)) ≫= λ k,
       match stateAfter (take (k - k0) (p :: ps)) st with
       | Some s => persistEvents flagOut (counterexamples s)
       | None => []
       end)
    = (filter (λ k, k mod 100 = 0) (seq (S (S k0)) (length ps)) ≫= λ k,
       match stateAfter (take (k - S k0) ps) st1 with
       | Some s => persistEvents flagOut (counterexamples s)
       | None => []
       end)).
  { apply bind_ext_Forall, Forall_forall. intros k Hk.
    apply list_elem_of_filter in Hk as [_ Hk%elem_of_seq].
    replace (k - k0) with (S (k - S k0)) by lia.
    simpl take. by rewrite stateAfter_cons, Hadv. }
  assert (Hfirst : stateAfter (take (S k0 - k0) (p :: ps)) st = Some st1).
  { replace (S k0 - k0) with 1 by lia. simpl take.
    by rewrite stateAfter_cons, Hadv. }
  destruct (decide (S k0 mod 100 = 0)) as [Hmod|Hmod].
  - rewrite filter_cons_True by done. by rewrite bind_cons, Hfirst, Hrest.
  - rewrite filter_cons_False by done. by rewrite Hrest.
Qed.

End TraceFacts.

(** ** The whole process *)

Section MainFacts.
Context `{Decls}.
Variable createErr : nat → string → option string.
Implicit Types (t : Table) (st : State) (wld : World) (ps progs : list Prog).

(** The loop either runs to the end without a failed [os.Create], or stops
    with status 1 right after one; every file event is on [flagOut]. *)
Lemma runLoop_inv flagOut ps :
  ∀ st wld, wfState st →
  ∃ evs k r,
    runLoop createErr flagOut ps st wld = (mkWorld (trace wld ++ evs) k, r)
    ∧ Forall (targets flagOut) evs
    ∧ ((∃ st', r = Val st' ∧ wfState st'
               ∧ existsb isFailedCreate evs = false)
       ∨ (r = Stop (Exit 1) ∧ existsb isFailedCreate evs = true)).
Proof.
  induction ps as [|p ps IH]; intros st wld Hwf.
  - exists [], (creates wld), (Val st). split_and!.
    + simpl. unfold mret, IO_ret. rewrite app_nil_r. by destruct wld.
    + constructor.
    + left. by exists st.
  - destruct (advance_spec p st Hwf) as (st1 & Hadv & Hwf1 & _).
    simpl runLoop. unfold mbind, IO_bind.
    rewrite (loopBody_run createErr flagOut p st st1 wld Hwf Hadv).
    destruct (decide (Z.rem (n st1) 100 = 0%Z ∧ flagOut ≠ EmptyString)).
    + destruct (createErr (creates wld) flagOut) as [err|].
      * eexists _, _, _. split_and!; [reflexivity| |].
        -- apply Forall_app. split; [apply targets_progress|].
           by repeat constructor.
        -- right. split; [done|].
           by rewrite existsb_app, existsb_failed_progress.
      * destruct (IH st1
          (mkWorld (trace wld ++ progressEvents st
                      ++ persistEvents flagOut (counterexamples st1))
                   (S (creates wld))) Hwf1)
          as (evs & k & r & Hrun & Htargets & Hres).
        rewrite Hrun. cbn [trace].
        exists (progressEvents st
                  ++ persistEvents flagOut (counterexamples st1) ++ evs), k, r.
        split_and!.
        -- by rewrite <- !app_assoc.
        -- rewrite !Forall_app.
           split_and!; [apply targets_progress|apply targets_persist|done].
        -- rewrite !existsb_app, existsb_failed_progress, existsb_failed_persist.
           done.
    + destruct (IH st1
        (mkWorld (trace wld ++ progressEvents st) (creates wld)) Hwf1)
        as (evs & k & r & Hrun & Htargets & Hres).
      rewrite Hrun. cbn [trace].
      exists (progressEvents st ++ evs), k, r. split_and!.
      * by rewrite <- !app_assoc.
      * rewrite Forall_app. split; [apply targets_progress|done].
      * by rewrite existsb_app, existsb_failed_progress.
Qed.

(** The run as a whole, in the same terms. *)
Lemma main_inv nargs flagOut progs :
  ¬ 0 < nargs →
  ∃ evs k r,
    main createErr nargs flagOut progs world0 = (mkWorld evs k, r)
    ∧ Forall (targets flagOut) evs
    ∧ ((r = Val tt ∧ existsb isFailedCreate evs = false)
       ∨ (r = Stop (Exit 1) ∧ existsb isFailedCreate evs = true)).
Proof.
  intros Hargs. unfold main. rewrite decide_False by done.
  unfold mbind, IO_bind.
  destruct (runLoop_inv flagOut progs initState world0 wfState_init)
    as (evs & k & r & Hrun & Htargets & [(st & -> & Hwf & Hok)|[-> Hfail]]).
  - rewrite Hrun, (finish_run createErr flagOut st _ Hwf). cbn [trace creates].
    simpl app at 1.
    destruct (decide (flagOut ≠ EmptyString)).
    + destruct (createErr k flagOut) as [err|].
      * eexists _, _, _. split_and!; [reflexivity| |].
        -- rewrite !Forall_app. split_and!; try done; by repeat constructor.
        -- right. split; [done|]. rewrite !existsb_app, Hok. done.
      * eexists _, _, _. split_and!; [reflexivity| |].
        -- rewrite !Forall_app.
           split_and!; try done; try apply targets_persist;
             by repeat constructor.
        -- left. split; [done|].
           rewrite !existsb_app, Hok, existsb_failed_persist. done.
    + eexists _, _, _. split_and!; [reflexivity| |].
      * rewrite !Forall_app.
        split_and!; try done; try apply targets_writes_stdout;
          by repeat constructor.
      * left. split; [done|].
        rewrite !existsb_app, Hok, existsb_failed_writes. done.
  - rewrite Hrun. simpl app. eexists _, _, _. split_and!; [reflexivity|done|].
    right. done.
Qed.

(** C6: with a positional argument the process exits with status 2; when an
    [os.Create] of the output file fails, during a persistence of the loop or
    at completion, it exits with status 1; otherwise [main] returns and the
    status is 0.  The three statuses differ. *)
Theorem exit_status nargs flagOut progs :
  exitStatus (main createErr nargs flagOut progs world0).2
  = Some (if decide (0 < nargs) then 2%Z
          else if existsb isFailedCreate
                    (trace (main createErr nargs flagOut progs world0).1)
               then 1%Z else 0%Z).
Proof.
  destruct (decide (0 < nargs)) as [Hargs|Hargs].
  - unfold main. by rewrite decide_True.
  - destruct (main_inv nargs flagOut progs Hargs)
      as (evs & k & r & -> & _ & [[-> Hok]|[-> Hfail]]); simpl.
    + by rewrite Hok.
    + by rewrite Hfail.
Qed.

(** C5, as the code has it: every file event of a run is on the configured
    output path itself, so each persistence creates that very file and writes
    into it in place; right after each successful [os.Create] the file a
    reader finds at the path is empty, whatever it held before. *)
Theorem persistence_in_place nargs flagOut progs k old :
  trace (main createErr nargs flagOut progs world0).1 !! k
    = Some (EvCreate flagOut true) →
  Forall (targets flagOut) (trace (main createErr nargs flagOut progs world0).1)
  ∧ fileAfter flagOut old
      (take (S k) (trace (main createErr nargs flagOut progs world0).1))
    = Some EmptyString.
Proof.
  intros Hk. split.
  - destruct (decide (0 < nargs)) as [Hargs|Hargs].
    + unfold main. rewrite decide_True by done. by repeat constructor.
    + destruct (main_inv nargs flagOut progs Hargs)
        as (evs & k' & r & -> & Htargets & _). done.
  - rewrite (take_S_r _ _ _ Hk). unfold fileAfter. rewrite foldl_app. simpl.
    by rewrite decide_True.
Qed.

End MainFacts.

(** ** Persisted graphs of a run whose file creations succeed *)

Section SnapshotFacts.
Context `{Decls}.
Variable createErr : nat → string → option string.
Hypothesis createErr_ok : ∀ k path, createErr k path = None.
Implicit Types (t : Table) (st : State) (wld : World) (ps progs : list Prog).

Lemma runLoop_ok flagOut ps :
  ∀ st wld k0,
    wfState st → n st = Z.of_nat k0 →
    (Z.of_nat (k0 + length ps) < 2 ^ 63)%Z →
    ∃ st' wld',
      runLoop createErr flagOut ps st wld = (wld', Val st')
      ∧ stateAfter ps st = Some st' ∧ wfState st'
      ∧ graphEvents (trace wld')
        = graphEvents (trace wld)
            ++ (if decide (flagOut ≠ EmptyString)
                then snapshotsFrom flagOut k0 ps st else []).
Proof.
  induction ps as [|p ps IH]; intros st wld k0 Hwf Hn Hbound.
  - exists st, wld. split_and!; try done.
    case_decide; by rewrite app_nil_r.
  - destruct (advance_spec p st Hwf) as (st1 & Hadv & Hwf1 & Hn1 & _).
    assert (Hn1' : n st1 = Z.of_nat (S k0)).
    { rewrite Hn1, Hn. rewrite wrap64_small; simpl length in Hbound; lia. }
    simpl runLoop. unfold mbind, IO_bind.
    rewrite (loopBody_run createErr flagOut p st st1 wld Hwf Hadv).
    rewrite createErr_ok, stateAfter_cons, Hadv.
    rewrite (snapshotsFrom_cons flagOut k0 p ps st st1 Hadv).
    rewrite Hn1'.
    assert (Hbound1 : (Z.of_nat (S k0 + length ps) < 2 ^ 63)%Z).
    { simpl length in Hbound. lia. }
    destruct (decide (Z.rem (Z.of_nat (S k0)) 100 = 0%Z ∧ flagOut ≠ EmptyString))
      as [[Hrem Hout]|Hno].
    + destruct (IH st1
        (mkWorld (trace wld ++ progressEvents st
                    ++ persistEvents flagOut (counterexamples st1))
                 (S (creates wld))) (S k0) Hwf1 Hn1' Hbound1)
        as (st' & wld' & Hrun & Hafter & Hwf' & Htrace).
      exists st', wld'. split_and!; try done.
      rewrite Htrace. cbn [trace].
      rewrite !graphEvents_app, graphEvents_progress, graphEvents_persist.
      rewrite !(decide_True (P := flagOut ≠ EmptyString)) by done.
      apply rem_100_nat in Hrem. rewrite decide_True by done.
      by rewrite <- !app_assoc.
    + destruct (IH st1
        (mkWorld (trace wld ++ progressEvents st) (creates wld))
        (S k0) Hwf1 Hn1' Hbound1)
        as (st' & wld' & Hrun & Hafter & Hwf' & Htrace).
      exists st', wld'. split_and!; try done.
      rewrite Htrace. cbn [trace].
      rewrite !graphEvents_app, graphEvents_progress, app_nil_r.
      destruct (decide (flagOut ≠ EmptyString)) as [Hout|Hout]; [|done].
      rewrite decide_False; [done|].
      intros Hmod. apply Hno. split; [|done]. by apply rem_100_nat.
Qed.

(** C7: in a run without positional arguments whose file creations succeed,
    the graph is persisted to the configured output path after every
    hundredth program, and once the generator is exhausted the graph of the
    final table is written once more: to the configured path when there is
    one, to standard output otherwise.  Nothing else carries a graph. *)
Theorem periodic_and_final_output flagOut progs :
  (Z.of_nat (length progs) < 2 ^ 63)%Z →
  ∃ final,
    stateAfter progs initState = Some final
    ∧ exitStatus (main createErr 0 flagOut progs world0).2 = Some 0%Z
    ∧ graphEvents (trace (main createErr 0 flagOut progs world0).1)
      = if decide (flagOut ≠ EmptyString) then
          (k ← snapshotTimes (length progs);
           match stateAfter (take k progs) initState with
           | Some st => persistEvents flagOut (counterexamples st)
           | None => []
           end)
          ++ persistEvents flagOut (counterexamples final)
        else map (EvWrite Stdout) (graphSpec (counterexamples final)).
Proof.
  intros Hbound.
  destruct (runLoop_ok flagOut progs initState world0 0 wfState_init)
    as (final & wld' & Hrun & Hafter & Hwf & Htrace); [done|done|].
  exists final. split; [done|].
  unfold main. rewrite decide_False by lia.
  unfold mbind, IO_bind. rewrite Hrun.
  rewrite (finish_run createErr flagOut final wld' Hwf), createErr_ok.
  destruct (decide (flagOut ≠ EmptyString)) as [Hout|Hout].
  - split; [done|]. cbn [fst trace].
    rewrite !graphEvents_app, Htrace, graphEvents_persist.
    unfold snapshotsFrom, snapshotTimes. simpl graphEvents.
    f_equal. change (graphEvents []) with (@nil Event). rewrite app_nil_l.
    apply bind_ext_Forall, Forall_forall. intros k _.
    by rewrite Nat.sub_0_r.
  - split; [done|]. cbn [fst trace].
    by rewrite !graphEvents_app, Htrace, graphEvents_writes.
Qed.

End SnapshotFacts.

(** ** The emitted graph, the cells and the display names *)

Section GraphFacts.
Context `{Decls}.
Implicit Types (t : Table) (p c : Prog) (st : State) (w : Dest) (wld : World).

Lemma elem_of_orderedPairs k i j :
  (i, j) ∈ orderedPairs k ↔ i < k ∧ j < k ∧ i ≠ j.
Proof.
  unfold orderedPairs. rewrite list_elem_of_bind. split.
  - intros (i' & Hin & Hi'%elem_of_seq).
    apply list_elem_of_bind in Hin as (j' & Hin & Hj'%elem_of_seq).
    case_decide as Hne; [|by apply elem_of_nil in Hin].
    apply list_elem_of_singleton in Hin. injection Hin as -> ->. lia.
  - intros (Hi & Hj & Hne). exists i. split; [|apply elem_of_seq; lia].
    apply list_elem_of_bind. exists j. split; [|apply elem_of_seq; lia].
    rewrite decide_True by done. by apply list_elem_of_singleton.
Qed.

Lemma pairChunks_cell t i j c mi mj :
  getCell t i j = Some c → models !! i = Some mi → models !! j = Some mj →
  pairChunks t (i, j)
  = if cellEmpty c then [edgeStmt mi mj]
    else [weakerComment mi mj; commentText (Prog_String c)].
Proof. intros Hc Hi Hj. unfold pairChunks. simpl. by rewrite Hc, Hi, Hj. Qed.

Lemma elem_of_writes w (s : string) (chunks : list string) tr :
  s ∈ chunks → EvWrite w s ∈ tr ++ map (EvWrite w) chunks.
Proof.
  intros Hs. apply elem_of_app. right.
  apply list_elem_of_In, in_map. by apply list_elem_of_In.
Qed.

Lemma nodeStmt_in_graphSpec t i mi :
  models !! i = Some mi → nodeStmt mi ∈ graphSpec t.
Proof.
  intros Hi. unfold graphSpec. rewrite !elem_of_app. right. left.
  apply list_elem_of_In, in_map, list_elem_of_In.
  by apply list_elem_of_lookup_2 with i.
Qed.

Lemma pairChunks_in_graphSpec t i j (s : string) :
  i < length models → j < length models → i ≠ j →
  s ∈ pairChunks t (i, j) → s ∈ graphSpec t.
Proof.
  intros Hi Hj Hne Hs. unfold graphSpec. rewrite !elem_of_app.
  right. right. left. apply list_elem_of_bind. exists (i, j).
  split; [done|]. by apply elem_of_orderedPairs.
Qed.

(** The comparator's test of one cell, in the terms of the specification. *)
Lemma compareCell_eq p (outs : list OutcomeSet) i j t row c oi oj :
  i ≠ j → t !! i = Some row → row !! j = Some c →
  outs !! i = Some oi → outs !! j = Some oj →
  compareCell p outs i j t
  = Some (if cellEmpty c && properSuperset oi oj
          then <[i := <[j := p]> row]> t else t).
Proof.
  intros Hne Hrow Hc Hoi Hoj. unfold compareCell, cellEmpty, properSuperset.
  rewrite decide_False by done. rewrite Hrow. simpl. rewrite Hc. simpl.
  destruct (decide (Type_ (elem0 (Ops (elem0 (Threads c)))) ≠ OpExit))
    as [Hexit|Hexit].
  { by rewrite bool_decide_false. }
  apply dec_stable in Hexit. rewrite bool_decide_true by done.
  rewrite Hoi. simpl. rewrite Hoj. simpl.
  destruct (decide (oi = oj)) as [Heq|Heq].
  { rewrite bool_decide_true by done. by rewrite andb_false_r. }
  rewrite bool_decide_false by done. by destruct (Contains oi oj).
Qed.

(** C3: a cell counts as empty exactly when the first operation of the first
    thread of its program is [OpExit].  The comparator leaves a cell that is
    not empty as it is and considers only an empty one for the new program;
    the emitter writes the edge for an empty cell and the counterexample for
    any other.  Both decide by this one criterion. *)
Theorem empty_cell_criterion p (outs : list OutcomeSet) w t i j row c oi oj mi mj :
  i ≠ j → t !! i = Some row → row !! j = Some c →
  outs !! i = Some oi → outs !! j = Some oj →
  models !! i = Some mi → models !! j = Some mj →
  (cellEmpty c = true ↔ Type_ (elem0 (Ops (elem0 (Threads c)))) = OpExit)
  ∧ compareCell p outs i j t
    = Some (if cellEmpty c
            then (if properSuperset oi oj
                  then <[i := <[j := p]> row]> t else t)
            else t)
  ∧ emits (graphCell w i j c) w
      (if cellEmpty c then [edgeStmt mi mj]
       else [weakerComment mi mj; commentText (Prog_String c)]).
Proof.
  intros Hne Hrow Hc Hoi Hoj Hmi Hmj. split_and!.
  - unfold cellEmpty. apply bool_decide_eq_true.
  - rewrite (compareCell_eq p outs i j t row c oi oj) by done.
    by destruct (cellEmpty c).
  - pose proof (graphCell_emits w i j mi mj c Hmi Hmj) as Hemits.
    unfold cellChunks in Hemits. by rewrite decide_False in Hemits.
Qed.

(** C4: the emitter writes the header, one label declaration, one quoted
    node statement per model, then for every ordered pair of distinct models,
    row by row, the edge when the cell is empty and otherwise the comment
    naming the weaker and the stronger model followed by the text of the
    witness with every line prefixed as a comment, and the closing brace. *)
Theorem graph_text w t wld :
  square (length models) t →
  writeModelGraph w t wld
  = (mkWorld (trace wld ++ map (EvWrite w) (graphSpec t)) (creates wld), Val tt)
  ∧ graphSpec t
    = [header; labelDecl] ++ map nodeStmt models
        ++ (orderedPairs (length models) ≫= pairChunks t) ++ [footer]
  ∧ ∀ i j c mi mj,
      i ≠ j → getCell t i j = Some c →
      models !! i = Some mi → models !! j = Some mj →
      (i, j) ∈ orderedPairs (length models)
      ∧ pairChunks t (i, j)
        = if cellEmpty c then [edgeStmt mi mj]
          else [weakerComment mi mj; commentText (Prog_String c)].
Proof.
  intros Hsq. split_and!.
  - apply (writeModelGraph_emits w t Hsq).
  - done.
  - intros i j c mi mj Hne Hc Hmi Hmj. split.
    + destruct (getCell_lt _ _ _ _ _ Hsq Hc). by apply elem_of_orderedPairs.
    + by apply pairChunks_cell.
Qed.

(** C8: an iteration evaluates SC, TSO and TSO with the store fence on the
    program, each into its own outcome set, and only then runs the comparator
    on these three sets.  Afterwards the program lives on in the table only:
    every cell holds the program or what it held before, and a cell that
    received the program keeps that value when the loop variable moves on to
    the next program. *)
Theorem evaluated_then_compared p st :
  wfState st →
  ∃ st' o0 o1 o2,
    advance p st = Some st'
    ∧ outcomes st = [o0; o1; o2]
    ∧ outcomes st'
      = [Eval SCModel p o0; Eval (TSOModel false) p o1;
         Eval (TSOModel true) p o2]
    ∧ compareAll p (outcomes st') (counterexamples st)
      = Some (counterexamples st')
    ∧ (∀ i j c, getCell (counterexamples st') i j = Some c →
         c = p ∨ getCell (counterexamples st) i j = Some c)
    ∧ (∀ q st'' i j, advance q st' = Some st'' →
         getCell (counterexamples st') i j = Some p → cellEmpty p = false →
         getCell (counterexamples st'') i j = Some p).
Proof.
  intros Hwf.
  destruct (advance_spec p st Hwf) as (st' & Hadv & Hwf' & _ & Houts & Hcells).
  pose proof Hwf as [Hlen _].
  destruct (outcomes st) as [|o0 [|o1 [|o2 [|]]]] eqn:Hst; try done.
  exists st', o0, o1, o2. split_and!; try done.
  - unfold advance in Hadv. rewrite Hst in Hadv.
    rewrite (evalModels_spec p [o0; o1; o2]) in Hadv by done.
    rewrite Houts. simpl in Hadv |- *.
    destruct (compareAll p _ (counterexamples st)) as [t'|]; [|done].
    simpl in Hadv. by injection Hadv as <-.
  - intros i j c Hc. rewrite Hcells in Hc.
    destruct (getCell (counterexamples st) i j) as [c0|]; [|done].
    simpl in Hc. injection Hc as <-. unfold newCell.
    destruct (outcomes st' !! i), (outcomes st' !! j); try (by right).
    case_match; [by left|by right].
  - intros q st'' i j Hadv' Hc Hne.
    by eapply advance_keeps_witness.
Qed.

(** C9: the display name of a model, quoted, is the one text by which the
    graph names the model: it is the node statement of the model, and for
    every ordered pair of distinct models the very same texts stand in the
    edge or in the comment line of the counterexample. *)
Theorem display_name_shared w t wld i j mi mj c :
  square (length models) t → i ≠ j →
  models !! i = Some mi → models !! j = Some mj →
  getCell t i j = Some c →
  EvWrite w (quote (Model_String mi) +:+ ";" +:+ nl)
    ∈ trace (writeModelGraph w t wld).1
  ∧ EvWrite w (quote (Model_String mj) +:+ ";" +:+ nl)
    ∈ trace (writeModelGraph w t wld).1
  ∧ EvWrite w
      (if cellEmpty c
       then quote (Model_String mi) +:+ " -> " +:+ quote (Model_String mj)
              +:+ ";" +:+ nl
       else "# " +:+ quote (Model_String mi) +:+ " is weaker than "
              +:+ quote (Model_String mj) +:+ ";" +:+ nl)
    ∈ trace (writeModelGraph w t wld).1.
Proof.
  intros Hsq Hne Hmi Hmj Hc.
  rewrite (writeModelGraph_emits w t Hsq). cbn [fst trace].
  destruct (getCell_lt _ _ _ _ _ Hsq Hc) as [Hi Hj].
  split_and!.
  - apply elem_of_writes. by apply (nodeStmt_in_graphSpec t i).
  - apply elem_of_writes. by apply (nodeStmt_in_graphSpec t j).
  - apply elem_of_writes. apply (pairChunks_in_graphSpec t i j); [done..|].
    rewrite (pairChunks_cell t i j c mi mj) by done.
    destruct (cellEmpty c).
    + by apply list_elem_of_singleton.
    + by left.
Qed.

(** C10: no run writes a diagonal cell, which therefore stays the zero
    program [make] put there; the emitter writes nothing for a pair [(i, i)],
    and its output is the same for two tables that differ on the diagonal
    only. *)
Theorem diagonal_untouched ps w i p wld t t' :
  (∃ st', stateAfter ps initState = Some st'
          ∧ getCell (counterexamples st') i i
            = getCell (makeTable (length models)) i i)
  ∧ graphCell w i i p wld = (wld, Val tt)
  ∧ (square (length models) t → square (length models) t' →
     (∀ a b, a ≠ b → getCell t a b = getCell t' a b) →
     writeModelGraph w t wld = writeModelGraph w t' wld).
Proof.
  split_and!.
  - destruct (stateAfter_wf ps initState wfState_init) as (st' & Hrun & _).
    exists st'. split; [done|].
    apply (stateAfter_cell_inv
             (λ o, o = getCell (makeTable (length models)) i i) i i)
      with (ps := ps) (st := initState); [|apply wfState_init|done..].
    intros q st1 st2 Hwf Hadv <-. by eapply advance_keeps_diagonal.
  - unfold graphCell. by rewrite decide_True.
  - intros Hsq Hsq' Hcells.
    rewrite (writeModelGraph_emits w t Hsq), (writeModelGraph_emits w t' Hsq').
    assert (Hpairs : orderedPairs (length models) ≫= pairChunks t
                     = orderedPairs (length models) ≫= pairChunks t').
    { apply bind_ext_Forall, Forall_forall.
      intros [a b] (_ & _ & Hab)%elem_of_orderedPairs.
      unfold pairChunks. simpl. by rewrite Hcells. }
    unfold graphSpec. by rewrite Hpairs.
Qed.

End GraphFacts.

(** ** The claims on the small instance *)

Section Instances.
Import Demo.

Example advance_sb : advance sb initState = Some stateSB.
Proof. reflexivity. Qed.

Example main_usage :
  main createOk 1 "out.dot" [sb] world0
  = (mkWorld [EvUsage] 0, Stop (Exit 2)).
Proof. reflexivity. Qed.

Example main_stdout :
  graphEvents (trace (main createOk 0 EmptyString [sb] world0).1)
  = map (EvWrite Stdout) (graphSpec tableSB).
Proof. reflexivity. Qed.

Example main_create_fails :
  exitStatus (main createFail2 0 "out.dot" (replicate 100 sb) world0).2
  = Some 1%Z.
Proof. vm_compute. reflexivity. Qed.

Lemma comparator_records_proper_superset_witness :
  ∃ st' mi mj oi oj,
    advance sb initState = Some st'
    ∧ models !! 1 = Some mi ∧ models !! 0 = Some mj
    ∧ outcomes initState !! 1 = Some oi ∧ outcomes initState !! 0 = Some oj
    ∧ outcomes st' !! 1 = Some (Eval mi sb oi)
    ∧ outcomes st' !! 0 = Some (Eval mj sb oj)
    ∧ getCell (counterexamples st') 1 0
      = Some (if properSuperset (Eval mi sb oi) (Eval mj sb oj)
              then sb else zeroProg).
Proof.
  apply (comparator_records_proper_superset sb initState 1 0 zeroProg).
  - split; [reflexivity|]. split; [reflexivity|]. repeat constructor.
  - lia.
  - reflexivity.
  - reflexivity.
Defined.

Lemma witness_never_overwritten_witness :
  ∃ st2, stateAfter ([sb] ++ [loads; sb]) initState = Some st2
         ∧ getCell (counterexamples st2) 1 0 = Some sb.
Proof.
  apply (witness_never_overwritten [sb] [loads; sb]
           stateSB 1 0 sb).
  - reflexivity.
  - reflexivity.
  - reflexivity.
Defined.

Lemma empty_cell_criterion_witness :
  (cellEmpty sb = true ↔ Type_ (elem0 (Ops (elem0 (Threads sb)))) = OpExit)
  ∧ compareCell loads outcomesSB 1 0 tableSB
    = Some (if cellEmpty sb
            then (if properSuperset 15%N 14%N
                  then <[1 := <[0 := loads]> [sb; zeroProg; sb]]> tableSB
                  else tableSB)
            else tableSB)
  ∧ emits (graphCell Stdout 1 0 sb) Stdout
      (if cellEmpty sb then [edgeStmt (TSOModel false) SCModel]
       else [weakerComment (TSOModel false) SCModel;
             commentText (Prog_String sb)]).
Proof.
  apply (empty_cell_criterion loads outcomesSB Stdout tableSB 1 0
           [sb; zeroProg; sb] sb 15%N 14%N (TSOModel false) SCModel).
  - lia.
  - reflexivity.
  - reflexivity.
  - reflexivity.
  - reflexivity.
  - reflexivity.
  - reflexivity.
Defined.

Lemma graph_text_witness :
  writeModelGraph Stdout tableSB world0
  = (mkWorld (trace world0 ++ map (EvWrite Stdout) (graphSpec tableSB))
             (creates world0), Val tt)
  ∧ graphSpec tableSB
    = [header; labelDecl] ++ map nodeStmt models
        ++ (orderedPairs (length models) ≫= pairChunks tableSB) ++ [footer]
  ∧ ∀ i j c mi mj,
      i ≠ j → getCell tableSB i j = Some c →
      models !! i = Some mi → models !! j = Some mj →
      (i, j) ∈ orderedPairs (length models)
      ∧ pairChunks tableSB (i, j)
        = if cellEmpty c then [edgeStmt mi mj]
          else [weakerComment mi mj; commentText (Prog_String c)].
Proof.
  apply (graph_text Stdout tableSB world0).
  split; [reflexivity|]. repeat constructor.
Defined.

Lemma persistence_in_place_witness :
  Forall (targets "out.dot")
    (trace (main createOk 0 "out.dot" (replicate 100 sb) world0).1)
  ∧ fileAfter "out.dot" (Some "digraph old {}")
      (take 11 (trace (main createOk 0 "out.dot" (replicate 100 sb) world0).1))
    = Some EmptyString.
Proof.
  apply (persistence_in_place createOk 0 "out.dot" (replicate 100 sb) 10
           (Some "digraph old {}")).
  vm_compute. reflexivity.
Defined.

(** C5, as stated, fails: while the hundredth program is persisted, a reader
    of the output path finds contents that are neither the prior file nor a
    finished graph (first the empty file, then the graph piece by piece). *)
Lemma persistence_not_atomic :
  atomicWrites "out.dot" (Some "digraph old {}")
    (trace (main createOk 0 "out.dot" (replicate 100 sb) world0).1)
  = false
  ∧ Some ("digraph memmodel {" +:+ nl)
    ∈ observations "out.dot" (Some "digraph old {}")
        (trace (main createOk 0 "out.dot" (replicate 100 sb) world0).1).
Proof.
  split; [vm_compute; reflexivity|].
  apply list_elem_of_lookup. exists 12. vm_compute. reflexivity.
Qed.

Lemma periodic_and_final_output_witness :
  ∃ final,
    stateAfter (replicate 100 sb ++ [loads]) initState = Some final
    ∧ exitStatus
        (main createOk 0 "out.dot" (replicate 100 sb ++ [loads]) world0).2
      = Some 0%Z
    ∧ graphEvents
        (trace (main createOk 0 "out.dot" (replicate 100 sb ++ [loads])
                  world0).1)
      = if decide ("out.dot" ≠ EmptyString) then
          (k ← snapshotTimes (length (replicate 100 sb ++ [loads]));
           match stateAfter (take k (replicate 100 sb ++ [loads])) initState
           with
           | Some st => persistEvents "out.dot" (counterexamples st)
           | None => []
           end)
          ++ persistEvents "out.dot" (counterexamples final)
        else map (EvWrite Stdout) (graphSpec (counterexamples final)).
Proof.
  apply (periodic_and_final_output createOk (λ _ _, eq_refl) "out.dot"
           (replicate 100 sb ++ [loads])).
  vm_compute. reflexivity.
Defined.

Lemma evaluated_then_compared_witness :
  ∃ st' o0 o1 o2,
    advance sb initState = Some st'
    ∧ outcomes initState = [o0; o1; o2]
    ∧ outcomes st'
      = [Eval SCModel sb o0; Eval (TSOModel false) sb o1;
         Eval (TSOModel true) sb o2]
    ∧ compareAll sb (outcomes st') (counterexamples initState)
      = Some (counterexamples st')
    ∧ (∀ i j c, getCell (counterexamples st') i j = Some c →
         c = sb ∨ getCell (counterexamples initState) i j = Some c)
    ∧ (∀ q st'' i j, advance q st' = Some st'' →
         getCell (counterexamples st') i j = Some sb → cellEmpty sb = false →
         getCell (counterexamples st'') i j = Some sb).
Proof.
  apply (evaluated_then_compared sb initState).
  split; [reflexivity|]. split; [reflexivity|]. repeat constructor.
Defined.

Lemma display_name_shared_witness :
  EvWrite Stdout (quote (Model_String (TSOModel false)) +:+ ";" +:+ nl)
    ∈ trace (writeModelGraph Stdout tableSB world0).1
  ∧ EvWrite Stdout (quote (Model_String SCModel) +:+ ";" +:+ nl)
    ∈ trace (writeModelGraph Stdout tableSB world0).1
  ∧ EvWrite Stdout
      (if cellEmpty sb
       then quote (Model_String (TSOModel false)) +:+ " -> "
              +:+ quote (Model_String SCModel) +:+ ";" +:+ nl
       else "# " +:+ quote (Model_String (TSOModel false))
              +:+ " is weaker than " +:+ quote (Model_String SCModel)
              +:+ ";" +:+ nl)
    ∈ trace (writeModelGraph Stdout tableSB world0).1.
Proof.
  apply (display_name_shared Stdout tableSB world0 1 0 (TSOModel false)
           SCModel sb).
  - split; [reflexivity|]. repeat constructor.
  - lia.
  - reflexivity.
  - reflexivity.
  - reflexivity.
Defined.

End Instances.

(** * The saved builds *)

(** ** Strings *)

Lemma string_app_length (s1 s2 : string) :
  String.length (s1 +:+ s2) = String.length s1 + String.length s2.
Proof.
  induction s1 as [|c s1 IH]; [done|].
  change (S (String.length (s1 +:+ s2)) = S (String.length s1 + String.length s2)).
  by rewrite IH.
Qed.

Lemma string_app_cons (c : ascii) (s1 s2 : string) :
  String c s1 +:+ s2 = String c (s1 +:+ s2).
Proof. done. Qed.

Lemma string_app_nil_l (s : string) : EmptyString +:+ s = s.
Proof. done. Qed.

Lemma string_app_eq_nil (s1 s2 : string) :
  s1 +:+ s2 = EmptyString → s1 = EmptyString ∧ s2 = EmptyString.
Proof. destruct s1; [done|]. rewrite string_app_cons. done. Qed.

Lemma string_app_eq_cons (s1 s2 : string) c s :
  s1 +:+ s2 = String c s →
  (s1 = EmptyString ∧ s2 = String c s)
  ∨ ∃ s1', s1 = String c s1' ∧ s = s1' +:+ s2.
Proof.
  destruct s1 as [|c1 s1]; [by left|].
  rewrite string_app_cons. intros [= -> <-]. right. by exists s1.
Qed.

Lemma string_length_zero (s : string) : String.length s = 0 → s = EmptyString.
Proof. by destruct s. Qed.

Lemma allChars_app P (s1 s2 : string) :
  allChars P (s1 +:+ s2) = allChars P s1 && allChars P s2.
Proof.
  induction s1 as [|c s1 IH]; [done|].
  rewrite string_app_cons. simpl. by rewrite IH, andb_assoc.
Qed.

(** A string splits at every position up to its length. *)
Lemma string_split_at (k : nat) (s : string) :
  k ≤ String.length s →
  ∃ s1 s2, s = s1 +:+ s2 ∧ String.length s1 = k.
Proof.
  revert s. induction k as [|k IH]; intros s Hk.
  - by exists EmptyString, s.
  - destruct s as [|c s]; simpl in Hk; [lia|].
    destruct (IH s) as (s1 & s2 & -> & Hlen); [lia|].
    exists (String c s1), s2. split; [done|]. simpl. by rewrite Hlen.
Qed.

Lemma HasPrefix_nil (s : string) : HasPrefix s EmptyString = true.
Proof. by destruct s. Qed.

Lemma HasPrefix_cons c1 c2 (s p : string) :
  HasPrefix (String c1 s) (String c2 p)
  = bool_decide (c1 = c2) && HasPrefix s p.
Proof.
  unfold HasPrefix. simpl. destruct (ascii_dec c2 c1) as [->|Hne].
  - by rewrite bool_decide_true.
  - rewrite bool_decide_false; [done|]. congruence.
Qed.

Lemma HasPrefix_refl (s : string) : HasPrefix s s = true.
Proof.
  induction s as [|c s IH]; [done|].
  by rewrite HasPrefix_cons, bool_decide_true, IH.
Qed.

Lemma HasPrefix_app (p s : string) : HasPrefix (p +:+ s) p = true.
Proof.
  induction p as [|c p IH]; [apply HasPrefix_nil|].
  by rewrite string_app_cons, HasPrefix_cons, bool_decide_true, IH.
Qed.

(** A prefix as long as the string is the string. *)
Lemma HasPrefix_same_length (s p : string) :
  HasPrefix s p = true → String.length p = String.length s → p = s.
Proof.
  revert p. induction s as [|c s IH]; intros [|c' p] Hp Hlen; try done.
  rewrite HasPrefix_cons in Hp.
  apply andb_true_iff in Hp as [->%bool_decide_eq_true Hp].
  f_equal. apply IH; [done|]. simpl in Hlen. lia.
Qed.

Lemma HasPrefix_nonempty (s p : string) :
  HasPrefix s p = true → p ≠ EmptyString → s ≠ EmptyString.
Proof. by destruct s, p. Qed.

Lemma HasPrefix_length (s p : string) :
  HasPrefix s p = true → String.length p ≤ String.length s.
Proof.
  revert p. induction s as [|c s IH]; intros [|c' p] Hp; simpl; try done; try lia.
  rewrite HasPrefix_cons in Hp. apply andb_true_iff in Hp as [_ Hp].
  specialize (IH p Hp). lia.
Qed.

(** [cutAt] on a text without the separator, and on one whose first part is
    without it. *)
Lemma cutAt_none P sep (s : string) :
  P sep = false → allChars P s = true → cutAt sep s = None.
Proof.
  intros Hsep. induction s as [|c s IH]; [done|]. simpl.
  intros [Hc Hs]%andb_true_iff. rewrite decide_False by congruence.
  by rewrite IH.
Qed.

Lemma cutAt_app P sep (h d : string) :
  P sep = false → allChars P h = true →
  cutAt sep (h +:+ String sep d) = Some (h, d).
Proof.
  intros Hsep. induction h as [|c h IH]; simpl.
  - intros _. by rewrite decide_True.
  - intros [Hc Hh]%andb_true_iff. rewrite decide_False by congruence.
    change (append h (String sep d)) with (h +:+ String sep d).
    by rewrite IH.
Qed.

Lemma cutAt_Some sep (s a b : string) :
  cutAt sep s = Some (a, b) → s = a +:+ String sep b.
Proof.
  revert a. induction s as [|c s IH]; intros a; [done|]. simpl.
  destruct (decide (c = sep)) as [->|Hne].
  - by intros [= <- <-].
  - destruct (cutAt sep s) as [[a' b']|]; [|done].
    intros [= <- <-]. rewrite string_app_cons. f_equal. by apply IH.
Qed.

(** [strings.SplitN(s, sep, 2)] returns one or two pieces, and
    [strings.Join] of them gives [s] back. *)
Lemma SplitN2_cases sep (s : string) :
  (SplitN2 sep s = [s] ∧ cutAt sep s = None)
  ∨ ∃ a b, SplitN2 sep s = [a; b] ∧ s = a +:+ String sep b.
Proof.
  unfold SplitN2. destruct (cutAt sep s) as [[a b]|] eqn:Hcut.
  - right. exists a, b. split; [done|]. by apply cutAt_Some.
  - by left.
Qed.

(** ** Matching by derivatives is matching *)

Section RegexpFacts.
Import Regexp.

Lemma lang_Never_inv (s : string) : ¬ lang Never s.
Proof. intros Hl. inversion Hl. Qed.

Lemma lang_Eps_inv (s : string) : lang Eps s → s = EmptyString.
Proof. intros Hl. by inversion Hl. Qed.

Lemma lang_Class_inv P (s : string) :
  lang (Class P) s → ∃ c, s = String c EmptyString ∧ P c = true.
Proof. intros Hl. inversion Hl; subst. eauto. Qed.

Lemma lang_Cat_inv r1 r2 (s : string) :
  lang (Cat r1 r2) s → ∃ s1 s2, s = s1 +:+ s2 ∧ lang r1 s1 ∧ lang r2 s2.
Proof. intros Hl. inversion Hl; subst. eauto. Qed.

Lemma lang_Alt_inv r1 r2 (s : string) :
  lang (Alt r1 r2) s → lang r1 s ∨ lang r2 s.
Proof. intros Hl. inversion Hl; subst; eauto. Qed.

Lemma lang_Star_inv r (s : string) :
  lang (Star r) s →
  s = EmptyString ∨ ∃ s1 s2, s = s1 +:+ s2 ∧ lang r s1 ∧ lang (Star r) s2.
Proof. intros Hl. inversion Hl; subst; eauto 6. Qed.

Lemma nullable_lang (r : regex) : nullable r = true ↔ lang r EmptyString.
Proof.
  split.
  - induction r as [| |P|r1 IH1 r2 IH2|r1 IH1 r2 IH2|r IH]; simpl; try done.
    + constructor.
    + intros [H1 H2]%andb_true_iff.
      change EmptyString with (EmptyString +:+ EmptyString).
      constructor; auto.
    + intros [H1|H2]%orb_true_iff; [apply lang_Alt_l|apply lang_Alt_r]; auto.
    + intros _. constructor.
  - intros Hl. remember EmptyString as s eqn:Hs.
    induction Hl as [|P c HP|r1 r2 s1 s2 H1 IH1 H2 IH2|r1 r2 s H1 IH1
                     |r1 r2 s H2 IH2|r|r s1 s2 H1 IH1 H2 IH2]; simpl; try done.
    + apply string_app_eq_nil in Hs as [-> ->]. by rewrite IH1, IH2.
    + by rewrite IH1.
    + rewrite IH2 by done. apply orb_true_r.
Qed.

Lemma deriv_lang (r : regex) c (s : string) :
  lang (deriv c r) s ↔ lang r (String c s).
Proof.
  split.
  - revert s.
    induction r as [| |P|r1 IH1 r2 IH2|r1 IH1 r2 IH2|r IH]; simpl; intros s Hl.
    + by apply lang_Never_inv in Hl.
    + by apply lang_Never_inv in Hl.
    + destruct (P c) eqn:HP; [|by apply lang_Never_inv in Hl].
      apply lang_Eps_inv in Hl as ->. by constructor.
    + assert (Hcat : lang (Cat (deriv c r1) r2) s → lang (Cat r1 r2) (String c s)).
      { intros (s1 & s2 & -> & H1 & H2)%lang_Cat_inv.
        rewrite <- string_app_cons. constructor; auto. }
      destruct (nullable r1) eqn:Hnull; [|by apply Hcat].
      apply lang_Alt_inv in Hl as [Hl|Hl]; [by apply Hcat|].
      change (String c s) with (EmptyString +:+ String c s).
      constructor; [by apply nullable_lang|auto].
    + apply lang_Alt_inv in Hl as [Hl|Hl];
        [apply lang_Alt_l|apply lang_Alt_r]; auto.
    + apply lang_Cat_inv in Hl as (s1 & s2 & -> & H1 & H2).
      rewrite <- string_app_cons. constructor; auto.
  - intros Hl. remember (String c s) as t eqn:Ht. revert s Ht.
    induction Hl as [|P c' HP|r1 r2 s1 s2 H1 IH1 H2 IH2|r1 r2 s' H1 IH1
                     |r1 r2 s' H2 IH2|r|r s1 s2 H1 IH1 H2 IH2];
      intros s Ht; simpl.
    + done.
    + injection Ht as -> <-. rewrite HP. constructor.
    + apply string_app_eq_cons in Ht as [[-> ->]|(s1' & -> & ->)].
      * apply nullable_lang in H1. rewrite H1. apply lang_Alt_r. by apply IH2.
      * assert (lang (Cat (deriv c r1) r2) (s1' +:+ s2)) as Hcat.
        { constructor; [by apply IH1|done]. }
        destruct (nullable r1); [by apply lang_Alt_l|done].
    + apply lang_Alt_l. by apply IH1.
    + apply lang_Alt_r. by apply IH2.
    + done.
    + apply string_app_eq_cons in Ht as [[-> ->]|(s1' & -> & ->)].
      * by apply IH2.
      * constructor; [by apply IH1|done].
Qed.

(** [MatchString] decides membership in the language of the pattern. *)
Lemma MatchString_lang (r : regex) (s : string) :
  MatchString r s = true ↔ lang r s.
Proof.
  revert r. induction s as [|c s IH]; intros r; simpl.
  - apply nullable_lang.
  - rewrite IH. apply deriv_lang.
Qed.

(** Patterns of one byte, and their repetitions. *)
Lemma oneOf_Class P : oneOf (Class P) P.
Proof.
  intros s. split; [apply lang_Class_inv|].
  intros (c & -> & HP). by constructor.
Qed.

Lemma oneOf_Alt r1 r2 P1 P2 :
  oneOf r1 P1 → oneOf r2 P2 → oneOf (Alt r1 r2) (λ c, P1 c || P2 c).
Proof.
  intros H1 H2 s. split.
  - intros [Hl|Hl]%lang_Alt_inv.
    + apply H1 in Hl as (c & -> & HP). exists c. by rewrite HP.
    + apply H2 in Hl as (c & -> & HP). exists c. by rewrite HP, orb_true_r.
  - intros (c & -> & [HP|HP]%orb_true_iff).
    + apply lang_Alt_l, H1. eauto.
    + apply lang_Alt_r, H2. eauto.
Qed.

Lemma lang_Times r P k (s : string) :
  oneOf r P →
  lang (Times k r) s ↔ String.length s = k ∧ allChars P s = true.
Proof.
  intros Hr. revert s. induction k as [|k IH]; intros s; simpl.
  - split.
    + by intros ->%lang_Eps_inv.
    + intros [->%string_length_zero _]. constructor.
  - split.
    + intros (s1 & s2 & -> & H1 & H2)%lang_Cat_inv.
      apply Hr in H1 as (c & -> & HP). apply IH in H2 as [Hlen Hall].
      rewrite string_app_cons, string_app_nil_l. simpl.
      by rewrite Hlen, HP, Hall.
    + intros [Hlen Hall]. destruct s as [|c s]; [done|].
      simpl in Hlen, Hall. apply andb_true_iff in Hall as [HP Hall].
      change (String c s) with (String c EmptyString +:+ s).
      constructor; [apply Hr; eauto|]. apply IH. split; [lia|done].
Qed.

Lemma lang_Opt r (s : string) :
  lang (Opt r) s ↔ lang r s ∨ s = EmptyString.
Proof.
  unfold Opt. split.
  - intros [Hl|Hl]%lang_Alt_inv; [by left|]. right. by apply lang_Eps_inv.
  - intros [Hl| ->]; [by apply lang_Alt_l|apply lang_Alt_r; constructor].
Qed.

Lemma lang_UpTo r P k (s : string) :
  oneOf r P →
  lang (UpTo k r) s ↔ String.length s ≤ k ∧ allChars P s = true.
Proof.
  intros Hr. revert s. induction k as [|k IH]; intros s; simpl.
  - split.
    + by intros ->%lang_Eps_inv.
    + intros [Hlen _]. destruct s; [constructor|simpl in Hlen; lia].
  - rewrite lang_Opt. split.
    + intros [Hl| ->]; [|simpl; split; [lia|done]].
      apply lang_Cat_inv in Hl as (s1 & s2 & -> & H1 & H2).
      apply Hr in H1 as (c & -> & HP). apply IH in H2 as [Hlen Hall].
      rewrite string_app_cons, string_app_nil_l. simpl.
      rewrite HP, Hall. split; [lia|done].
    + intros [Hlen Hall]. destruct s as [|c s]; [by right|left].
      simpl in Hlen, Hall. apply andb_true_iff in Hall as [HP Hall].
      change (String c s) with (String c EmptyString +:+ s).
      constructor; [apply Hr; eauto|]. apply IH. split; [lia|done].
Qed.

Lemma lang_Repeat r P m k (s : string) :
  oneOf r P → m ≤ k →
  lang (Repeat m k r) s
  ↔ m ≤ String.length s ≤ k ∧ allChars P s = true.
Proof.
  intros Hr Hmk. unfold Repeat. split.
  - intros (s1 & s2 & -> & H1 & H2)%lang_Cat_inv.
    apply (lang_Times r P) in H1 as [Hlen1 Hall1]; [|done].
    apply (lang_UpTo r P) in H2 as [Hlen2 Hall2]; [|done].
    rewrite string_app_length, allChars_app, Hall1, Hall2. split; [lia|done].
  - intros [Hlen Hall].
    destruct (string_split_at m s) as (s1 & s2 & -> & Hlen1); [lia|].
    rewrite string_app_length in Hlen.
    rewrite allChars_app in Hall. apply andb_true_iff in Hall as [Hall1 Hall2].
    constructor.
    + by apply (lang_Times r P).
    + apply (lang_UpTo r P); [done|]. split; [lia|done].
Qed.

End RegexpFacts.

(** ** The names of saved builds *)

Section NameFacts.
Import Regexp Builds.

Lemma oneOf_hex : oneOf hex isHex.
Proof. exact (oneOf_Alt _ _ _ _ (oneOf_Class _) (oneOf_Class _)). Qed.

Lemma lang_plus (s : string) : lang (Char "+") s ↔ s = "+".
Proof.
  split.
  - intros (c & -> & ->%bool_decide_eq_true)%lang_Class_inv. done.
  - intros ->. constructor. by apply bool_decide_eq_true.
Qed.

(** What [hashPlusRe] accepts. *)
Lemma hashPlusRe_spec (s : string) :
  MatchString hashPlusRe s = true ↔ isHashPlus s.
Proof.
  rewrite MatchString_lang. unfold hashPlusRe, isHashPlus, hexDigits. split.
  - intros (s1 & s2 & -> & H1 & H2)%lang_Cat_inv.
    apply (lang_Times hex isHex) in H1; [|apply oneOf_hex].
    apply lang_Opt in H2 as [H2| ->].
    + apply lang_Cat_inv in H2 as (p & d & -> & ->%lang_plus & Hd).
      apply (lang_Times hex isHex) in Hd; [|apply oneOf_hex].
      right. by exists s1, d.
    + left. by rewrite string_app_nil_r.
  - intros [Hs|(h & d & -> & Hh & Hd)].
    + rewrite <- (string_app_nil_r s). constructor.
      * by apply (lang_Times hex isHex); [apply oneOf_hex|].
      * apply lang_Opt. by right.
    + constructor.
      * by apply (lang_Times hex isHex); [apply oneOf_hex|].
      * apply lang_Opt. left. constructor; [by apply lang_plus|].
        by apply (lang_Times hex isHex); [apply oneOf_hex|].
Qed.

(** What [hashNameRe] accepts. *)
Lemma hashNameRe_spec (s : string) :
  MatchString hashNameRe s = true ↔ isHashName s.
Proof.
  rewrite MatchString_lang. unfold hashNameRe, isHashName. split.
  - intros (s1 & s2 & -> & H1 & H2)%lang_Cat_inv.
    apply (lang_Repeat hex isHex) in H1; [|apply oneOf_hex|lia].
    apply lang_Opt in H2 as [H2| ->].
    + apply lang_Cat_inv in H2 as (p & d & -> & ->%lang_plus & Hd).
      apply (lang_Repeat hex isHex) in Hd; [|apply oneOf_hex|lia].
      right. by exists s1, d.
    + left. by rewrite string_app_nil_r.
  - intros [Hs|(h & d & -> & Hh & Hd)].
    + rewrite <- (string_app_nil_r s). constructor.
      * by apply (lang_Repeat hex isHex); [apply oneOf_hex|lia|].
      * apply lang_Opt. by right.
    + constructor.
      * by apply (lang_Repeat hex isHex); [apply oneOf_hex|lia|].
      * apply lang_Opt. left. constructor; [by apply lang_plus|].
        by apply (lang_Repeat hex isHex); [apply oneOf_hex|lia|].
Qed.

Lemma isHex_plus : isHex "+" = false.
Proof. reflexivity. Qed.

(** The two pieces of a name [hashPlusRe] accepts. *)
Lemma cutAt_hashPlus (s : string) :
  isHashPlus s →
  (cutAt "+" s = None ∧ hexDigits 40 s)
  ∨ ∃ h d, cutAt "+" s = Some (h, d) ∧ s = h +:+ "+" +:+ d
           ∧ hexDigits 40 h ∧ hexDigits 10 d.
Proof.
  intros [Hs|(h & d & -> & Hh & Hd)].
  - left. split; [|done]. apply (cutAt_none isHex); [done|apply Hs].
  - right. exists h, d. split; [|done].
    apply (cutAt_app isHex); [done|apply Hh].
Qed.

Lemma cutAt_hashName (s : string) :
  isHashName s →
  (cutAt "+" s = None ∧ 7 ≤ String.length s ≤ 40 ∧ allChars isHex s = true)
  ∨ ∃ h d, cutAt "+" s = Some (h, d) ∧ s = h +:+ "+" +:+ d
           ∧ (7 ≤ String.length h ≤ 40 ∧ allChars isHex h = true)
           ∧ (1 ≤ String.length d ≤ 10 ∧ allChars isHex d = true).
Proof.
  intros [Hs|(h & d & -> & Hh & Hd)].
  - left. split; [|done]. apply (cutAt_none isHex); [done|apply Hs].
  - right. exists h, d. split; [|done].
    apply (cutAt_app isHex); [done|apply Hh].
Qed.

Lemma substring_prefix (k : nat) (s1 s2 : string) :
  String.length s1 = k → String.substring 0 k (s1 +:+ s2) = s1.
Proof.
  revert k. induction s1 as [|c s1 IH]; intros k Hk; simpl in Hk; subst k.
  - by destruct s2.
  - rewrite string_app_cons. simpl. by rewrite IH.
Qed.

Lemma first7_Ok (s : string) :
  7 ≤ String.length s →
  ∃ h t, s = h +:+ t ∧ String.length h = 7 ∧ first7 s = Ok h.
Proof.
  intros Hlen. destruct (string_split_at 7 s Hlen) as (h & t & -> & Hh).
  exists h, t. split_and!; try done. unfold first7.
  rewrite decide_True by done. by rewrite substring_prefix.
Qed.

End NameFacts.

(** ** Listing the saved builds *)

Section ListFacts.
Import Regexp Builds.
Context `{Sys}.
Implicit Types (file f : FileInfo) (files : list FileInfo) (st : ListState).

(** The build recorded for a directory has the name of the directory as
    its full name. *)
Lemma fullName_buildOf (name : string) :
  isHashPlus name →
  fullName (buildOf name) = name
  ∧ hexDigits 40 (commitHash (buildOf name))
  ∧ (deltaHash (buildOf name) = EmptyString
     ∨ hexDigits 10 (deltaHash (buildOf name))).
Proof.
  intros Hname. unfold buildOf, fullName.
  destruct (cutAt_hashPlus name Hname)
    as [[-> Hhex]|(h & d & -> & -> & Hh & Hd)]; simpl.
  - auto.
  - rewrite decide_False; [auto|].
    destruct Hd as [Hlen _]. by destruct d.
Qed.

Lemma isBuildDir_name file :
  isBuildDir file = true → isHashPlus (Name file).
Proof.
  unfold isBuildDir. intros [_ Hm]%andb_true_iff. by apply hashPlusRe_spec.
Qed.

Lemma listStep_skip flags file st :
  isBuildDir file = false → listStep flags file st = Ok st.
Proof.
  unfold isBuildDir, listStep. intros Hno.
  apply andb_false_iff in Hno as [-> | ->]; [done|].
  by rewrite orb_true_r.
Qed.

Lemma listStep_build flags file st :
  isBuildDir file = true → Z.land flags listCommit = 0%Z →
  listStep flags file st
  = Ok (mkListState
          (builds st ++ [buildOf (Name file)])
          ((λ m, <[Name file := length (builds st)]> m) <$> baseMap st)).
Proof.
  unfold isBuildDir, listStep. intros [-> ->]%andb_true_iff Hflags. simpl.
  rewrite (decide_False (P := Z.land flags listCommit ≠ 0%Z)) by (by intros []).
  unfold SplitN2, buildOf.
  by destruct (cutAt "+" (Name file)) as [[h d]|].
Qed.

Lemma buildDirs_cons_True file files :
  isBuildDir file = true → buildDirs (file :: files) = file :: buildDirs files.
Proof.
  intros Hb. unfold buildDirs. rewrite filter_cons_True; [done|].
  by rewrite Hb.
Qed.

Lemma buildDirs_cons_False file files :
  isBuildDir file = false → buildDirs (file :: files) = buildDirs files.
Proof.
  intros Hb. unfold buildDirs. rewrite filter_cons_False; [done|].
  rewrite Hb. by intros [].
Qed.

(** The first loop of [listBuilds], when the commits are not asked for. *)
Lemma listLoop flags files :
  Z.land flags listCommit = 0%Z →
  ∀ st, forEachO (listStep flags) files st
        = Ok (mkListState
                (builds st ++ ((λ f, buildOf (Name f)) <$> buildDirs files))
                (indexFrom (Name <$> buildDirs files) (length (builds st))
                   <$> baseMap st)).
Proof.
  intros Hflags. induction files as [|file files IH]; intros st.
  - simpl. rewrite app_nil_r. destruct st as [bs [m|]]; done.
  - simpl forEachO. destruct (isBuildDir file) eqn:Hb.
    + rewrite listStep_build by done. simpl.
      change (forEachO (listStep flags) files ?s ≫= _) with
        (forEachO (listStep flags) files s).
      rewrite IH. simpl builds. simpl baseMap.
      rewrite buildDirs_cons_True by done. rewrite !fmap_cons.
      rewrite length_app. simpl length. rewrite <- app_assoc. simpl app.
      replace (length (builds st) + 1) with (S (length (builds st))) by lia.
      by destruct (baseMap st).
    + rewrite listStep_skip by done. simpl.
      rewrite buildDirs_cons_False by done. apply IH.
Qed.

End ListFacts.

Section ListNamesFacts.
Import Regexp Builds.
Context `{Sys}.
Implicit Types (file f : FileInfo) (files : list FileInfo) (st : ListState).

Lemma indexFrom_notin (ns : list string) k (m : gmap string nat) x :
  x ∉ ns → indexFrom ns k m !! x = m !! x.
Proof.
  revert k m. induction ns as [|y ns IH]; intros k m Hx; [done|]. simpl.
  apply not_elem_of_cons in Hx as [Hxy Hx].
  rewrite IH by done. by rewrite lookup_insert_ne.
Qed.

Lemma indexFrom_lookup (ns : list string) k (m : gmap string nat) x i :
  NoDup ns → ns !! i = Some x → indexFrom ns k m !! x = Some (k + i).
Proof.
  revert k m i. induction ns as [|y ns IH]; intros k m i Hnd Hi; [done|].
  apply NoDup_cons in Hnd as [Hy Hnd]. simpl. destruct i as [|i]; simpl in Hi.
  - injection Hi as ->. rewrite indexFrom_notin by done.
    rewrite lookup_insert_eq. f_equal. lia.
  - rewrite (IH (S k) _ i) by done. f_equal. lia.
Qed.

Lemma indexFrom_Some (ns : list string) k (m : gmap string nat) x j :
  indexFrom ns k m !! x = Some j →
  (∃ i, j = k + i ∧ ns !! i = Some x) ∨ m !! x = Some j.
Proof.
  revert k m. induction ns as [|y ns IH]; intros k m Hj; [by right|].
  simpl in Hj. apply IH in Hj as [(i & -> & Hi)|Hj].
  - left. exists (S i). split; [lia|done].
  - destruct (decide (y = x)) as [->|Hne].
    + rewrite lookup_insert_eq in Hj. injection Hj as <-.
      left. exists 0. split; [lia|done].
    + rewrite lookup_insert_ne in Hj by done. by right.
Qed.

Lemma linksTo_snoc files file target :
  linksTo (files ++ [file]) target
  = linksTo files target
      ++ (if decide (IsSymlink file
                     ∧ Readlink (Join [verDir; Name file]) = Some target)
          then [Name file] else []).
Proof.
  unfold linksTo. rewrite filter_app, fmap_app. f_equal.
  case_decide as Hc.
  - by rewrite filter_cons_True, filter_nil.
  - by rewrite filter_cons_False, filter_nil.
Qed.

(** The second loop of [listBuilds]: every symbolic link that points to a
    listed directory is added to the names of that build. *)
Lemma nameLoop (dirs : list FileInfo) (m : gmap string nat) :
  NoDup (Name <$> dirs) →
  m = indexFrom (Name <$> dirs) 0 ∅ →
  ∀ rest seen,
    forEachO nameStep rest
      (mkListState
         ((λ f, withNames (linksTo seen (Name f)) (buildOf (Name f))) <$> dirs)
         (Some m))
    = Ok (mkListState
            ((λ f, withNames (linksTo (seen ++ rest) (Name f))
                             (buildOf (Name f))) <$> dirs)
            (Some m)).
Proof.
  intros Hnd Hm. induction rest as [|file rest IH]; intros seen.
  - by rewrite app_nil_r.
  - assert (Hnext : ∀ st,
      nameStep file
        (mkListState
           ((λ f, withNames (linksTo seen (Name f)) (buildOf (Name f)))
              <$> dirs) (Some m)) = Ok st →
      forEachO nameStep (file :: rest)
        (mkListState
           ((λ f, withNames (linksTo seen (Name f)) (buildOf (Name f)))
              <$> dirs) (Some m))
      = forEachO nameStep rest st).
    { intros st Hst. simpl. by rewrite Hst. }
    replace (seen ++ file :: rest) with ((seen ++ [file]) ++ rest)
      by (by rewrite <- app_assoc).
    rewrite <- IH. apply Hnext. unfold nameStep. simpl.
    assert (Hsame :
      (∀ f, f ∈ dirs →
            ¬ (IsSymlink file
               ∧ Readlink (Join [verDir; Name file]) = Some (Name f))) →
      (λ f, withNames (linksTo seen (Name f)) (buildOf (Name f))) <$> dirs
      = (λ f, withNames (linksTo (seen ++ [file]) (Name f))
                        (buildOf (Name f))) <$> dirs).
    { intros Hno. apply list_fmap_ext. intros i f Hf.
      rewrite linksTo_snoc, decide_False, app_nil_r; [done|].
      apply Hno. by eapply list_elem_of_lookup_2. }
    destruct (IsSymlink file) eqn:Hsym;
      [|rewrite Hsame; [done|]; by intros f _ [[] _]].
    destruct (Readlink (Join [verDir; Name file])) as [base|] eqn:Hlink;
      [|rewrite Hsame; [done|]; by intros f _ [_ ?]].
    destruct (m !! base) as [j|] eqn:Hj.
    + rewrite Hm in Hj. apply indexFrom_Some in Hj as [(i & -> & Hi)|Hj];
        [|by rewrite lookup_empty in Hj].
      simpl "+". do 2 f_equal. apply list_eq. intros k.
      rewrite list_lookup_fmap in Hi.
      destruct (dirs !! i) as [fi|] eqn:Hfi; [|done]. injection Hi as Hbase.
      destruct (decide (k = i)) as [->|Hki].
      * rewrite list_lookup_alter_eq, !list_lookup_fmap, Hfi. simpl. f_equal.
        rewrite linksTo_snoc, decide_True; [done|].
        by rewrite Hsym, Hlink, Hbase.
      * rewrite list_lookup_alter_ne by done. rewrite !list_lookup_fmap.
        destruct (dirs !! k) as [fk|] eqn:Hfk; [|done]. simpl. f_equal.
        rewrite linksTo_snoc, decide_False, app_nil_r; [done|].
        rewrite Hlink. intros [_ [= Hkb]]. apply Hki.
        apply (NoDup_lookup (Name <$> dirs) k i (Name fk)); [done|..].
        -- by rewrite list_lookup_fmap, Hfk.
        -- rewrite list_lookup_fmap, Hfi. simpl. congruence.
    + rewrite Hsame; [done|]. intros f Hf [_ [= ->]].
      apply list_elem_of_lookup in Hf as [i Hf].
      rewrite Hm, (indexFrom_lookup _ 0 ∅ (Name f) i) in Hj; [done|done|].
      by rewrite list_lookup_fmap, Hf.
Qed.

End ListNamesFacts.

Section ListTheorems.
Import Regexp Builds.
Context `{Sys}.
Implicit Types (file f : FileInfo) (files : list FileInfo) (b : buildInfo).

Lemma withNames_nil (name : string) :
  withNames [] (buildOf name) = buildOf name.
Proof. unfold buildOf. by destruct (cutAt "+" name) as [[h d]|]. Qed.

Lemma buildDirs_isBuildDir files f :
  f ∈ buildDirs files → isBuildDir f = true.
Proof.
  unfold buildDirs. intros [Hb _]%list_elem_of_filter.
  by apply Is_true_true.
Qed.

Lemma listBuilds_plain flags files :
  ReadDir verDir = Entries files →
  Z.land flags listCommit = 0%Z → Z.land flags listNames = 0%Z →
  listBuilds flags = Ok (inl ((λ f, buildOf (Name f)) <$> buildDirs files)).
Proof.
  intros Hdir Hcommit Hnames. unfold listBuilds. rewrite Hdir.
  destruct (decide (Z.land flags listNames ≠ 0%Z)) as [Hn|_]; [done|].
  by rewrite listLoop.
Qed.

(** X1: when the version directory can be read, [listBuilds] without the
    commit flag and without the names flag returns, in the order of the
    listing, one build for every entry that is a directory named by 40
    hexadecimal digits, optionally followed by [+] and 10 more; the full name
    of each build is the name of its directory, its path is that name under
    the version directory, and it carries neither names nor a commit. *)
Theorem listBuilds_lists_build_dirs flags files :
  ReadDir verDir = Entries files →
  Z.land flags listCommit = 0%Z → Z.land flags listNames = 0%Z →
  ∃ bs,
    listBuilds flags = Ok (inl bs)
    ∧ fullName <$> bs = Name <$> buildDirs files
    ∧ path <$> bs = (λ f, Join [verDir; Name f]) <$> buildDirs files
    ∧ Forall (λ b, names b = [] ∧ commit_ b = None
                   ∧ hexDigits 40 (commitHash b)
                   ∧ (deltaHash b = EmptyString ∨ hexDigits 10 (deltaHash b)))
             bs.
Proof.
  intros Hdir Hcommit Hnames.
  exists ((λ f, buildOf (Name f)) <$> buildDirs files). split_and!.
  - by apply listBuilds_plain.
  - rewrite <- list_fmap_compose. apply list_fmap_ext. intros i f Hf. simpl.
    apply fullName_buildOf, isBuildDir_name, (buildDirs_isBuildDir files).
    by eapply list_elem_of_lookup_2.
  - rewrite <- list_fmap_compose. apply list_fmap_ext. intros i f Hf. simpl.
    unfold buildOf. by destruct (cutAt "+" (Name f)) as [[h d]|].
  - apply Forall_fmap, Forall_forall. intros f Hf. simpl.
    pose proof (fullName_buildOf (Name f)
                  (isBuildDir_name f (buildDirs_isBuildDir files f Hf)))
      as (_ & Hh & Hd).
    split_and!; try done;
      unfold buildOf; by destruct (cutAt "+" (Name f)) as [[h d]|].
Qed.

(** X2: with the names flag (and without the commit flag), every build of
    the listing carries as its names exactly the symbolic links of the
    version directory whose target is the name of its directory, in the
    order of the listing; links that cannot be read or that point elsewhere
    are dropped. *)
Theorem listBuilds_names flags files :
  ReadDir verDir = Entries files →
  Z.land flags listCommit = 0%Z → Z.land flags listNames ≠ 0%Z →
  NoDup (Name <$> buildDirs files) →
  listBuilds flags
  = Ok (inl ((λ f, withNames (linksTo files (Name f)) (buildOf (Name f)))
               <$> buildDirs files)).
Proof.
  intros Hdir Hcommit Hnames Hnd. unfold listBuilds. rewrite Hdir.
  destruct (decide (Z.land flags listNames ≠ 0%Z)) as [_|Hn]; [|done].
  rewrite listLoop by done. simpl.
  assert (Hstart :
    (λ f, buildOf (Name f)) <$> buildDirs files
    = (λ f, withNames (linksTo [] (Name f)) (buildOf (Name f)))
        <$> buildDirs files).
  { apply list_fmap_ext. intros i f _. by rewrite withNames_nil. }
  rewrite Hstart.
  rewrite (nameLoop (buildDirs files) _ Hnd eq_refl files []). done.
Qed.

End ListTheorems.

(** ** Resolving a name *)

Section ResolveFacts.
Import Regexp Builds.
Context `{Sys}.
Implicit Types (file f : FileInfo) (files : list FileInfo) (b : buildInfo).

Lemma fullName_nonempty b : commitHash b ≠ EmptyString → fullName b ≠ EmptyString.
Proof.
  unfold fullName. intros Hc. case_decide; [done|].
  destruct (commitHash b); [done|]. by rewrite string_app_cons.
Qed.

Lemma selects_fullName_nonempty (parts : list string) p0 b :
  parts !! 0 = Some p0 → p0 ≠ EmptyString →
  selects parts b = true → fullName b ≠ EmptyString.
Proof.
  intros Hp0 Hne Hsel. apply fullName_nonempty.
  destruct parts as [|q0 [|q1 [|]]]; simpl in *; try done;
    injection Hp0 as ->;
    repeat (apply andb_true_iff in Hsel as [Hsel ?]);
    by eapply HasPrefix_nonempty.
Qed.

(** One iteration of the loop of [resolveName], for a name split in one or
    two pieces. *)
Lemma resolveStep_selects name (parts : list string) b found :
  0 < length parts ≤ 2 →
  resolveStep name parts b found
  = if selects parts b
    then (if decide (found ≠ EmptyString)
          then Fatal ("ambiguous name `" +:+ name +:+ "`")
          else Ok (fullName b))
    else Ok found.
Proof.
  intros Hlen. unfold resolveStep.
  destruct parts as [|p0 [|p1 [|]]]; simpl in Hlen; try lia; simpl.
  - destruct (HasPrefix (commitHash b) p0); [|done]. simpl.
    by destruct (bool_decide (deltaHash b = EmptyString)).
  - destruct (HasPrefix (commitHash b) p0); [|done]. simpl.
    destruct (bool_decide (deltaHash b = EmptyString)); [done|]. simpl.
    by destruct (HasPrefix (deltaHash b) p1).
Qed.

(** The loop of [resolveName] over the builds. *)
Lemma resolveLoop name (parts : list string) (bs : list buildInfo) :
  0 < length parts ≤ 2 →
  (∀ b, selects parts b = true → fullName b ≠ EmptyString) →
  ∀ found,
    forEachO (resolveStep name parts) bs found
    = match filter (λ b, selects parts b) bs with
      | [] => Ok found
      | b :: more =>
          if decide (found ≠ EmptyString)
          then Fatal ("ambiguous name `" +:+ name +:+ "`")
          else match more with
               | [] => Ok (fullName b)
               | _ :: _ => Fatal ("ambiguous name `" +:+ name +:+ "`")
               end
      end.
Proof.
  intros Hlen Hfull. induction bs as [|b bs IH]; intros found; [done|].
  simpl forEachO. rewrite resolveStep_selects by done.
  destruct (selects parts b) eqn:Hsel.
  - rewrite filter_cons_True by (by rewrite Hsel).
    destruct (decide (found ≠ EmptyString)) as [Hfound|Hfound]; [done|].
    simpl. change (forEachO (resolveStep name parts) bs ?s ≫= _) with
      (forEachO (resolveStep name parts) bs s).
    rewrite IH. destruct (filter _ bs) as [|b' more]; [done|].
    by rewrite decide_True by (by apply Hfull).
  - rewrite filter_cons_False by (rewrite Hsel; by intros []).
    simpl. apply IH.
Qed.

Lemma SplitN2_length sep (s : string) : 0 < length (SplitN2 sep s) ≤ 2.
Proof.
  destruct (SplitN2_cases sep s) as [[-> _]|(a & b & -> & _)]; simpl; lia.
Qed.

(** The first piece of a name [hashNameRe] accepts is not empty. *)
Lemma SplitN2_hashName (name : string) :
  isHashName name →
  ∃ p0, SplitN2 "+" name !! 0 = Some p0 ∧ p0 ≠ EmptyString.
Proof.
  intros Hname. unfold SplitN2.
  destruct (cutAt_hashName name Hname)
    as [(-> & Hlen & _)|(h & d & -> & _ & [Hlen _] & _)].
  - exists name. split; [done|]. intros ->. simpl in Hlen. lia.
  - exists h. split; [done|]. intros ->. simpl in Hlen. lia.
Qed.

Lemma resolveName_hash_name name (bs : list buildInfo) :
  Stat (Join [verDir; name]) ≠ Some true →
  MatchString hashNameRe name = true →
  listBuilds 0 = Ok (inl bs) →
  resolveName name
  = match filter (λ b, selects (SplitN2 "+" name) b) bs with
    | [] => Ok (Join [verDir; name], false)
    | [b] => Ok (Join [verDir; fullName b], true)
    | _ :: _ :: _ => Fatal ("ambiguous name `" +:+ name +:+ "`")
    end.
Proof.
  intros Hstat Hmatch Hlist. unfold resolveName.
  destruct (SplitN2_hashName name) as (p0 & Hp0 & Hne);
    [by apply hashNameRe_spec|].
  assert (Hfull : ∀ b, selects (SplitN2 "+" name) b = true
                       → fullName b ≠ EmptyString).
  { intros b. by apply (selects_fullName_nonempty _ p0). }
  rewrite Hmatch, Hlist. simpl.
  rewrite (resolveLoop name _ bs (SplitN2_length _ _) Hfull).
  assert (Hres :
    match filter (λ b, selects (SplitN2 "+" name) b) bs with
    | [] => Ok EmptyString
    | b :: more =>
        if decide (EmptyString ≠ EmptyString)
        then Fatal ("ambiguous name `" +:+ name +:+ "`")
        else match more with
             | [] => Ok (fullName b)
             | _ :: _ => Fatal ("ambiguous name `" +:+ name +:+ "`")
             end
    end ≫= (λ found : string,
              if decide (found ≠ EmptyString)
              then Ok (Join [verDir; found], true)
              else Ok (Join [verDir; name], false))
    = match filter (λ b, selects (SplitN2 "+" name) b) bs with
      | [] => Ok (Join [verDir; name], false)
      | [b] => Ok (Join [verDir; fullName b], true)
      | _ :: _ :: _ => Fatal ("ambiguous name `" +:+ name +:+ "`")
      end).
  { destruct (filter _ bs) as [|b [|b' more]] eqn:Hsel; simpl; [done| |done].
    rewrite decide_True; [done|]. apply Hfull.
    assert (b ∈ filter (λ b, selects (SplitN2 "+" name) b) bs) as Hb
      by (rewrite Hsel; left).
    apply list_elem_of_filter in Hb as [Hb _]. by apply Is_true_true. }
  destruct (Stat (Join [verDir; name])) as [[|]|]; done.
Qed.

(** X3: for a name that is not a saved directory but looks like a hash
    (7 to 40 hexadecimal digits, optionally [+] and 1 to 10 more),
    [resolveName] answers by the builds the name selects: none, and the
    name is reported as not saved under its own path; exactly one, and it is
    the path of that build; two or more, and the process stops with the
    message that the name is ambiguous. *)
Theorem resolveName_by_prefix name (bs : list buildInfo) :
  Stat (Join [verDir; name]) ≠ Some true →
  MatchString hashNameRe name = true →
  listBuilds 0 = Ok (inl bs) →
  resolveName name
  = match filter (λ b, selects (SplitN2 "+" name) b) bs with
    | [] => Ok (Join [verDir; name], false)
    | [b] => Ok (Join [verDir; fullName b], true)
    | _ :: _ :: _ => Fatal ("ambiguous name `" +:+ name +:+ "`")
    end.
Proof. apply resolveName_hash_name. Qed.

(** X4: when the version directory does not exist, no name is an error:
    every name that is not itself a saved directory is reported as not
    saved, under its own path. *)
Theorem resolveName_no_version_dir name :
  ReadDir verDir = NotExist →
  Stat (Join [verDir; name]) ≠ Some true →
  resolveName name = Ok (Join [verDir; name], false).
Proof.
  intros Hdir Hstat. unfold resolveName, listBuilds. rewrite Hdir.
  destruct (Stat (Join [verDir; name])) as [[|]|]; try done;
    by destruct (MatchString hashNameRe name).
Qed.

End ResolveFacts.

Section RoundTripFacts.
Import Regexp Builds.
Context `{Sys}.
Implicit Types (file f : FileInfo) (files : list FileInfo) (b : buildInfo).

Lemma isHashPlus_isHashName (s : string) : isHashPlus s → isHashName s.
Proof.
  unfold isHashPlus, isHashName, hexDigits.
  intros [[Hlen Hall]|(h & d & -> & [Hh Hhall] & [Hd Hdall])].
  - left. split; [lia|done].
  - right. exists h, d. split_and!; try done; lia.
Qed.

(** The build of a directory is selected by the name of the directory, and
    by that name only among the names of saved builds. *)
Lemma selects_buildOf (name name' : string) :
  isHashPlus name → isHashPlus name' →
  selects (SplitN2 "+" name) (buildOf name') = true ↔ name' = name.
Proof.
  intros Hname Hname'. unfold SplitN2, buildOf.
  destruct (cutAt_hashPlus name Hname)
    as [[-> [Hlen Hall]]|(h & d & -> & -> & [Hh Hhall] & [Hd Hdall])];
  destruct (cutAt_hashPlus name' Hname')
    as [[-> [Hlen' Hall']]|(h' & d' & -> & -> & [Hh' Hhall'] & [Hd' Hdall'])];
  simpl.
  - rewrite andb_true_r. split.
    + intros Hp. symmetry. apply HasPrefix_same_length; [done|lia].
    + intros ->. apply HasPrefix_refl.
  - split.
    + intros [_ Hd'']%andb_true_iff.
      apply bool_decide_eq_true in Hd''. subst d'. done.
    + intros Heq. exfalso.
      assert (String.length (h' +:+ "+" +:+ d') = String.length name)
        as Hl by (by rewrite Heq).
      rewrite !string_app_length in Hl. simpl in Hl. lia.
  - rewrite andb_false_r. simpl. split; [done|].
    intros Heq. exfalso.
    assert (String.length name' = String.length (h +:+ "+" +:+ d))
      as Hl by (by rewrite Heq).
    rewrite !string_app_length in Hl. simpl in Hl. lia.
  - split.
    + intros [[Hp _]%andb_true_iff Hpd]%andb_true_iff.
      apply HasPrefix_same_length in Hp; [|lia].
      apply HasPrefix_same_length in Hpd; [|lia]. by subst.
    + intros Heq.
      assert (Some (h', d') = Some (h, d)) as [= -> ->].
      { rewrite <- (cutAt_app isHex "+" h' d'), <- (cutAt_app isHex "+" h d);
          try done. f_equal. exact Heq. }
      rewrite !HasPrefix_refl. simpl.
      rewrite bool_decide_false; [done|]. by destruct d.
Qed.

Lemma filter_selects_none (parts : list string) name (dirs : list FileInfo) :
  (∀ g, g ∈ dirs → selects parts (buildOf (Name g)) = true → Name g = name) →
  name ∉ Name <$> dirs →
  filter (λ b, selects parts b) ((λ g, buildOf (Name g)) <$> dirs) = [].
Proof.
  intros Hsel Hnot. induction dirs as [|d dirs IH]; [done|].
  csimpl in *. apply not_elem_of_cons in Hnot as [Hd Hnot].
  rewrite filter_cons_False.
  - apply IH; [|done]. intros g Hg. apply Hsel. by right.
  - intros Hs%Is_true_true. apply Hd. symmetry. apply Hsel; [by left|done].
Qed.

(** Among directories of distinct names, the name of one selects its build
    and no other. *)
Lemma filter_selects_unique f (dirs : list FileInfo) :
  (∀ g, g ∈ dirs → isHashPlus (Name g)) →
  NoDup (Name <$> dirs) → f ∈ dirs →
  filter (λ b, selects (SplitN2 "+" (Name f)) b)
         ((λ g, buildOf (Name g)) <$> dirs)
  = [buildOf (Name f)].
Proof.
  intros Hnames Hnd Hf.
  assert (Hfname : isHashPlus (Name f)) by (by apply Hnames).
  induction dirs as [|d dirs IH]; [by apply elem_of_nil in Hf|].
  csimpl in *. apply NoDup_cons in Hnd as [Hd Hnd].
  destruct (decide (Name d = Name f)) as [Heq|Hne].
  - rewrite filter_cons_True.
    + rewrite Heq. f_equal. apply (filter_selects_none _ (Name f)).
      * intros g Hg Hsel. apply selects_buildOf in Hsel; [done|done|].
        apply Hnames. by right.
      * by rewrite <- Heq.
    + apply Is_true_true, selects_buildOf; [done| |done].
      apply Hnames. by left.
  - rewrite filter_cons_False.
    + apply IH; [|done|].
      * intros g Hg. apply Hnames. by right.
      * apply elem_of_cons in Hf as [->|Hf]; done.
    + intros Hs%Is_true_true. apply Hne.
      apply selects_buildOf in Hs; [done|done|]. apply Hnames. by left.
Qed.

(** The short name of the build of a directory, and what it selects. *)
Lemma shortName_buildOf (name : string) :
  isHashPlus name →
  ∃ s, shortName (buildOf name) = Ok s
       ∧ isHashName s
       ∧ HasPrefix name (String.substring 0 7 s) = true
       ∧ String.length (String.substring 0 7 s) = 7
       ∧ selects (SplitN2 "+" s) (buildOf name) = true.
Proof.
  intros Hname. unfold shortName, buildOf, SplitN2.
  destruct (cutAt_hashPlus name Hname)
    as [[-> [Hlen Hall]]|(h & d & -> & -> & [Hh Hhall] & [Hd Hdall])];
    simpl.
  - destruct (first7_Ok name) as (h7 & t & -> & H7 & ->); [lia|].
    rewrite allChars_app in Hall. apply andb_true_iff in Hall as [Hall7 _].
    exists h7.
    assert (String.substring 0 7 h7 = h7) as ->.
    { rewrite <- (string_app_nil_r h7) at 1. by apply substring_prefix. }
    split_and!; try done.
    + left. split; [lia|done].
    + apply HasPrefix_app.
    + rewrite (cutAt_none isHex) by done. simpl.
      by rewrite HasPrefix_app.
  - destruct (first7_Ok h) as (h7 & t & -> & H7 & ->); [lia|].
    rewrite allChars_app in Hhall. apply andb_true_iff in Hhall as [Hall7 _].
    rewrite decide_False by (by destruct d). simpl.
    exists (h7 +:+ "+" +:+ d). rewrite substring_prefix by done.
    split_and!; try done.
    + right. exists h7, d. split_and!; try done; lia.
    + rewrite string_app_assoc. apply HasPrefix_app.
    + change (h7 +:+ "+" +:+ d) with (h7 +:+ String "+" d).
      rewrite (cutAt_app isHex) by done. simpl.
      rewrite HasPrefix_app, HasPrefix_refl. simpl.
      rewrite bool_decide_false; [done|]. by destruct d.
Qed.

(** X5: a saved build is found by its own full name: when the names of the
    listed directories are distinct, [resolveName] of the name of a build
    directory answers the path of that directory, and that it exists. *)
Theorem resolveName_full_name files f :
  ReadDir verDir = Entries files →
  NoDup (Name <$> buildDirs files) → f ∈ buildDirs files →
  resolveName (Name f) = Ok (Join [verDir; Name f], true).
Proof.
  intros Hdir Hnd Hf.
  assert (Hnames : ∀ g, g ∈ buildDirs files → isHashPlus (Name g)).
  { intros g Hg. by apply isBuildDir_name, (buildDirs_isBuildDir files). }
  destruct (decide (Stat (Join [verDir; Name f]) = Some true)) as [Hstat|Hstat].
  { unfold resolveName. by rewrite Hstat. }
  rewrite (resolveName_hash_name
             _ ((λ g, buildOf (Name g)) <$> buildDirs files) Hstat).
  - rewrite (filter_selects_unique f _ Hnames Hnd Hf).
    by destruct (fullName_buildOf (Name f) (Hnames f Hf)) as [-> _].
  - by apply hashNameRe_spec, isHashPlus_isHashName, Hnames.
  - by apply listBuilds_plain.
Qed.

(** X6: the short name of a saved build (the first 7 digits of its commit
    hash, and its delta hash after a [+] if it has one) never panics for a
    listed build, is a name [hashNameRe] accepts, and leads back to the
    build: unless a saved directory has that very name, [resolveName] of the
    short name answers the path of the build, or stops because the short
    name is ambiguous; it never reports the build as not saved. *)
Theorem shortName_resolves files f :
  ReadDir verDir = Entries files →
  NoDup (Name <$> buildDirs files) → f ∈ buildDirs files →
  ∃ s, shortName (buildOf (Name f)) = Ok s
       ∧ MatchString hashNameRe s = true
       ∧ (Stat (Join [verDir; s]) ≠ Some true →
          resolveName s = Ok (Join [verDir; Name f], true)
          ∨ resolveName s = Fatal ("ambiguous name `" +:+ s +:+ "`")).
Proof.
  intros Hdir Hnd Hf.
  assert (Hname : isHashPlus (Name f)).
  { by apply isBuildDir_name, (buildDirs_isBuildDir files). }
  destruct (shortName_buildOf (Name f) Hname) as (s & Hs & Hhash & _ & _ & Hsel).
  exists s. split_and!; [done|by apply hashNameRe_spec|].
  intros Hstat.
  rewrite (resolveName_hash_name
             s ((λ g, buildOf (Name g)) <$> buildDirs files) Hstat);
    [|by apply hashNameRe_spec|by apply listBuilds_plain].
  assert (buildOf (Name f)
          ∈ filter (λ b, selects (SplitN2 "+" s) b)
                   ((λ g, buildOf (Name g)) <$> buildDirs files)) as Hin.
  { apply list_elem_of_filter. split; [by apply Is_true_true|].
    apply list_elem_of_fmap. by exists f. }
  destruct (filter _ _) as [|b [|b' more]]; [by apply elem_of_nil in Hin| |by right].
  left. apply list_elem_of_singleton in Hin as <-.
  by destruct (fullName_buildOf (Name f) Hname) as [-> _].
Qed.

End RoundTripFacts.

(** ** Reading a commit object *)

Section CommitFacts.
Import Builds.
Context `{Sys}.
Implicit Types (line next : string) (pre rest : list string) (out : commit).

Lemma HasPrefix_author_nonempty line :
  HasPrefix line "author " = true → line ≠ EmptyString.
Proof. by destruct line. Qed.

Lemma length_zero_iff line : String.length line = 0 ↔ line = EmptyString.
Proof. split; [apply string_length_zero|by intros ->]. Qed.

(** A line that is neither empty nor an author line changes nothing. *)
Lemma parseCommitLoop_plain pre rest out :
  Forall (λ l, l ≠ EmptyString ∧ HasPrefix l "author " = false) pre →
  parseCommitLoop (pre ++ rest) out = parseCommitLoop rest out.
Proof.
  induction 1 as [|line pre [Hne Hauthor] _ IH]; [done|].
  simpl. rewrite Hauthor. simpl.
  rewrite decide_False by (by rewrite length_zero_iff). done.
Qed.

(** An author line sets the date to the number in its field before the
    last. *)
Lemma parseCommitLoop_author line rest out f secs :
  HasPrefix line "author " = true →
  2 ≤ length (Fields line) →
  Fields line !! (length (Fields line) - 2) = Some f →
  ParseInt f = inl secs →
  parseCommitLoop (line :: rest) out
  = parseCommitLoop rest (mkCommit (Unix secs 0) (topLine out)).
Proof.
  intros Hauthor Hlen Hf Hsecs. simpl. rewrite Hauthor.
  rewrite decide_True by done. unfold index. rewrite Hf. simpl.
  rewrite Hsecs. simpl.
  rewrite decide_False; [done|].
  rewrite length_zero_iff. by apply HasPrefix_author_nonempty.
Qed.

(** The first empty line ends the loop: the line after it is the top line. *)
Lemma parseCommitLoop_blank next rest out :
  parseCommitLoop (EmptyString :: next :: rest) out
  = Ok (mkCommit (authorDate out) next).
Proof. done. Qed.

(** X7: for a commit object whose header has one author line, followed by
    an empty line and the message, [parseCommit] returns the time
    [time.Unix(secs, 0)] for the number [secs] in the field before the last
    of the author line, and the first line of the message as the top line. *)
Theorem parseCommit_author_and_top_line (obj : string) pre1 line pre2 next rest
    f secs :
  lines obj = pre1 ++ line :: pre2 ++ EmptyString :: next :: rest →
  Forall (λ l, l ≠ EmptyString ∧ HasPrefix l "author " = false) pre1 →
  Forall (λ l, l ≠ EmptyString ∧ HasPrefix l "author " = false) pre2 →
  HasPrefix line "author " = true →
  2 ≤ length (Fields line) →
  Fields line !! (length (Fields line) - 2) = Some f →
  ParseInt f = inl secs →
  parseCommit obj = Ok (mkCommit (Unix secs 0) next).
Proof.
  intros Hlines Hpre1 Hpre2 Hauthor Hlen Hf Hsecs.
  unfold parseCommit. rewrite Hlines.
  rewrite parseCommitLoop_plain by done.
  rewrite (parseCommitLoop_author line _ _ f secs) by done.
  by rewrite parseCommitLoop_plain by done.
Qed.

(** X8: [parseCommit] reads nothing after the first line of the message:
    two commit objects that agree up to the line after the first empty line
    give the same result, whatever it is; an author line in the body of the
    message does not change the date. *)
Theorem parseCommit_ignores_body (obj obj' : string) pre next rest rest' :
  lines obj = pre ++ EmptyString :: next :: rest →
  lines obj' = pre ++ EmptyString :: next :: rest' →
  Forall (λ l, l ≠ EmptyString) pre →
  parseCommit obj = parseCommit obj'.
Proof.
  intros Hlines Hlines' Hpre. unfold parseCommit. rewrite Hlines, Hlines'.
  clear Hlines Hlines'. generalize (mkCommit TimeZero EmptyString).
  induction Hpre as [|line pre Hne _ IH]; intros out; [done|].
  simpl.
  match goal with
  | |- ?m ≫= _ = _ => destruct m as [out1| |]; simpl; try done
  end.
  rewrite !(decide_False (P := String.length line = 0))
    by (by rewrite length_zero_iff).
  apply IH.
Qed.

(** X9: a commit object without author line whose only empty line is its
    last line stops [parseCommit] with a panic: the line after the empty
    line, [lines[i+1]], does not exist.  This is the case of the empty
    object and of a header that ends with a newline and has no message. *)
Theorem parseCommit_no_message_panics (obj : string) pre :
  lines obj = pre ++ [EmptyString] →
  Forall (λ l, l ≠ EmptyString ∧ HasPrefix l "author " = false) pre →
  parseCommit obj = Panicked.
Proof.
  intros Hlines Hpre. unfold parseCommit. rewrite Hlines.
  by rewrite parseCommitLoop_plain by done.
Qed.

(** X10: a commit object without empty line and without author line is
    accepted: the result has the zero time and an empty top line. *)
Theorem parseCommit_header_only (obj : string) :
  Forall (λ l, l ≠ EmptyString ∧ HasPrefix l "author " = false) (lines obj) →
  parseCommit obj = Ok (mkCommit TimeZero EmptyString).
Proof.
  intros Hpre. unfold parseCommit.
  rewrite <- (app_nil_r (lines obj)). by rewrite parseCommitLoop_plain by done.
Qed.

(** X11: the first author line decides before anything after it is read:
    with fewer than two fields it stops [parseCommit] with a panic (the
    index [len(fs)-2] is negative), and with a field before the last that
    [strconv.ParseInt] rejects it stops the process with the message
    "malformed author in commit" followed by the error. *)
Theorem parseCommit_bad_author (obj : string) pre line rest :
  lines obj = pre ++ line :: rest →
  Forall (λ l, l ≠ EmptyString ∧ HasPrefix l "author " = false) pre →
  HasPrefix line "author " = true →
  (length (Fields line) < 2 → parseCommit obj = Panicked)
  ∧ (∀ f err,
       2 ≤ length (Fields line) →
       Fields line !! (length (Fields line) - 2) = Some f →
       ParseInt f = inr err →
       parseCommit obj = Fatal ("malformed author in commit: " +:+ err)).
Proof.
  intros Hlines Hpre Hauthor. unfold parseCommit. rewrite Hlines.
  rewrite parseCommitLoop_plain by done. simpl. rewrite Hauthor. split.
  - intros Hlen. by rewrite decide_False by lia.
  - intros f err Hlen Hf Herr. rewrite decide_True by done.
    unfold index. rewrite Hf. simpl. by rewrite Herr.
Qed.

End CommitFacts.

(** * More on the runs of the checker *)

Section WitnessFacts.
Context `{Decls}.
Implicit Types (t : Table) (p c : Prog) (st : State) (ps : list Prog).

(** From a state whose cell [(i, j)] is empty, the run leaves in the cell
    the first program that separates the two models, or the cell as it
    is. *)
Lemma stateAfter_first_witness i j ps :
  Forall (λ p, cellEmpty p = false) ps →
  i ≠ j → i < length models → j < length models →
  ∀ st c,
    wfState st → getCell (counterexamples st) i j = Some c →
    cellEmpty c = true →
    ∃ st', stateAfter ps st = Some st'
           ∧ getCell (counterexamples st') i j
             = Some (default c (firstWitness i j ps (outcomes st))).
Proof.
  intros Hps Hij Hi Hj.
  induction Hps as [|p ps Hp _ IH]; intros st c Hwf Hcell Hempty.
  - by exists st.
  - destruct (advance_spec p st Hwf)
      as (st1 & Hadv & Hwf1 & _ & Houts & Hcells).
    rewrite stateAfter_cons, Hadv. simpl.
    change (zip_with (λ m o, Eval m p o) models (outcomes st))
      with (evaluated p (outcomes st)) in Houts.
    rewrite <- Houts.
    pose proof Hwf1 as [Hlen1 _].
    destruct (lookup_lt_is_Some_2 (outcomes st1) i) as [oi Hoi]; [lia|].
    destruct (lookup_lt_is_Some_2 (outcomes st1) j) as [oj Hoj]; [lia|].
    rewrite Hoi, Hoj.
    assert (Hcell1 : getCell (counterexamples st1) i j
                     = Some (if properSuperset oi oj then p else c)).
    { rewrite Hcells, Hcell. simpl. unfold newCell.
      rewrite Hoi, Hoj, Hempty. by rewrite bool_decide_true. }
    destruct (properSuperset oi oj).
    + destruct (stateAfter_wf ps st1 Hwf1) as (st' & Hrun & _).
      exists st'. split; [done|]. simpl.
      apply (stateAfter_cell_inv (λ o, o = Some p) i j)
        with (ps := ps) (st := st1); [|done..].
      intros q s s' Hs Hq Hc. by eapply advance_keeps_witness.
    + by apply IH.
Qed.

(** X12: when the zero program counts as empty and no generated program
    does, the table a run ends with holds, for every ordered pair of
    distinct models, the first generated program on which the first model
    permits a proper superset of the outcomes of the second, and the zero
    program when there is none; so the cell is empty at the end, and the
    graph has the edge, exactly when no generated program separates the two
    models. *)
Theorem table_holds_first_witness ps i j :
  cellEmpty Prog_zero = true →
  Forall (λ p, cellEmpty p = false) ps →
  i ≠ j → i < length models → j < length models →
  ∃ st' c,
    stateAfter ps initState = Some st'
    ∧ getCell (counterexamples st') i j = Some c
    ∧ c = default Prog_zero (firstWitness i j ps (outcomes initState))
    ∧ (cellEmpty c = true
       ↔ firstWitness i j ps (outcomes initState) = None).
Proof.
  intros Hzero Hps Hij Hi Hj.
  assert (Hcell0 : getCell (counterexamples initState) i j = Some Prog_zero).
  { clear -Hi Hj. simpl in Hi, Hj.
    destruct i as [|[|[|i]]], j as [|[|[|j]]]; try lia; done. }
  destruct (stateAfter_first_witness i j ps Hps Hij Hi Hj initState Prog_zero
              wfState_init Hcell0 Hzero) as (st' & Hrun & Hcell).
  eexists st', _. split_and!; [done|done|done|].
  destruct (firstWitness i j ps (outcomes initState)) as [p|] eqn:Hfirst; simpl.
  - assert (cellEmpty p = false) as ->; [|done].
    clear Hrun Hcell Hcell0. revert Hfirst. generalize (outcomes initState).
    induction Hps as [|q ps Hq _ IH]; intros outs; [done|]. simpl.
    destruct (evaluated q outs !! i), (evaluated q outs !! j); try apply IH.
    destruct (properSuperset _ _); [|apply IH]. by intros [= <-].
  - done.
Qed.

End WitnessFacts.

Section MoreMainFacts.
Context `{Decls}.
Variable createErr : nat → string → option string.
Implicit Types (t : Table) (st : State) (wld : World) (ps progs : list Prog).

Lemma progressEvents_stderr st :
  Forall (λ e, isStderr e = true) (progressEvents st).
Proof. unfold progressEvents. case_decide; by repeat constructor. Qed.

Lemma graphEvents_stderr (evs : list Event) :
  Forall (λ e, isStderr e = true) evs → graphEvents evs = [].
Proof.
  induction 1 as [|e evs He _ IH]; [done|]. unfold graphEvents in *.
  rewrite filter_cons_False; [done|]. destruct e; simpl in *; try done.
  by intros [].
Qed.

(** Without an output path the loop only evaluates, compares and reports
    progress. *)
Lemma runLoop_no_path ps :
  ∀ st wld, wfState st →
  ∃ st' evs,
    runLoop createErr EmptyString ps st wld
    = (mkWorld (trace wld ++ evs) (creates wld), Val st')
    ∧ stateAfter ps st = Some st' ∧ wfState st'
    ∧ Forall (λ e, isStderr e = true) evs.
Proof.
  induction ps as [|p ps IH]; intros st wld Hwf.
  - exists st, []. split_and!; try done.
    simpl. unfold mret, IO_ret. rewrite app_nil_r. by destruct wld.
  - destruct (advance_spec p st Hwf) as (st1 & Hadv & Hwf1 & _).
    simpl runLoop. unfold mbind, IO_bind.
    rewrite (loopBody_run createErr EmptyString p st st1 wld Hwf Hadv).
    rewrite decide_False by (by intros [_ ?]).
    destruct (IH st1 (mkWorld (trace wld ++ progressEvents st) (creates wld))
                Hwf1) as (st' & evs & Hrun & Hafter & Hwf' & Hevs).
    rewrite Hrun. cbn [trace creates].
    exists st', (progressEvents st ++ evs). split_and!.
    + by rewrite <- app_assoc.
    + by rewrite stateAfter_cons, Hadv.
    + done.
    + apply Forall_app. split; [apply progressEvents_stderr|done].
Qed.

(** X13: without an output path ([-o] not given) a run cannot fail and
    never touches the file system, whatever the generator yields: [main]
    returns, [os.Create] is never called, and the graph of the final table
    is written once, to standard output. *)
Theorem no_output_path_never_fails progs :
  ∃ final tr,
    stateAfter progs initState = Some final
    ∧ main createErr 0 EmptyString progs world0 = (mkWorld tr 0, Val tt)
    ∧ graphEvents tr = map (EvWrite Stdout) (graphSpec (counterexamples final))
    ∧ Forall (λ e, isFileEvent e = false) tr.
Proof.
  destruct (runLoop_no_path progs initState world0 wfState_init)
    as (final & evs & Hrun & Hafter & Hwf & Hevs).
  eexists final, _. split; [done|].
  unfold main. rewrite decide_False by lia. unfold mbind, IO_bind.
  rewrite Hrun, (finish_run createErr EmptyString final _ Hwf).
  rewrite decide_False by (by intros ?). cbn [trace creates].
  split_and!; [reflexivity| |].
  - rewrite !graphEvents_app, (graphEvents_stderr evs Hevs), graphEvents_writes.
    done.
  - rewrite !Forall_app. split_and!.
    + constructor.
    + eapply Forall_impl; [exact Hevs|]. by intros [].
    + by repeat constructor.
    + generalize (graphSpec (counterexamples final)).
      intros chunks. induction chunks; by constructor.
Qed.

(** The loop, with the events of a failure spelled out. *)
Lemma runLoop_stop flagOut ps :
  ∀ st wld, wfState st →
  ∃ evs k r,
    runLoop createErr flagOut ps st wld = (mkWorld (trace wld ++ evs) k, r)
    ∧ ((∃ st', r = Val st' ∧ wfState st'
               ∧ existsb isFailedCreate evs = false)
       ∨ (r = Stop (Exit 1)
          ∧ ∃ evs' err,
              evs = evs' ++ [EvCreate flagOut false; EvStderr (err +:+ nl)]
              ∧ existsb isFailedCreate evs' = false)).
Proof.
  induction ps as [|p ps IH]; intros st wld Hwf.
  - exists [], (creates wld), (Val st). split.
    + simpl. unfold mret, IO_ret. rewrite app_nil_r. by destruct wld.
    + left. by exists st.
  - destruct (advance_spec p st Hwf) as (st1 & Hadv & Hwf1 & _).
    simpl runLoop. unfold mbind, IO_bind.
    rewrite (loopBody_run createErr flagOut p st st1 wld Hwf Hadv).
    assert (Hcont : ∀ pre k0,
      existsb isFailedCreate pre = false →
      ∃ evs k r,
        runLoop createErr flagOut ps st1 (mkWorld (trace wld ++ pre) k0)
        = (mkWorld (trace wld ++ evs) k, r)
        ∧ ((∃ st', r = Val st' ∧ wfState st'
                   ∧ existsb isFailedCreate evs = false)
           ∨ (r = Stop (Exit 1)
              ∧ ∃ evs' err,
                  evs = evs' ++ [EvCreate flagOut false; EvStderr (err +:+ nl)]
                  ∧ existsb isFailedCreate evs' = false))).
    { intros pre k0 Hpre.
      destruct (IH st1 (mkWorld (trace wld ++ pre) k0) Hwf1)
        as (evs & k & r & Hrun & Hres).
      exists (pre ++ evs), k, r. split.
      - rewrite Hrun. cbn [trace]. by rewrite <- app_assoc.
      - destruct Hres as [(st' & -> & Hwf' & Hok)|(-> & evs' & err & -> & Hok)].
        + left. exists st'. split_and!; try done.
          by rewrite existsb_app, Hpre, Hok.
        + right. split; [done|]. exists (pre ++ evs'), err.
          split; [by rewrite <- app_assoc|].
          by rewrite existsb_app, Hpre, Hok. }
    destruct (decide (Z.rem (n st1) 100 = 0%Z ∧ flagOut ≠ EmptyString)).
    + destruct (createErr (creates wld) flagOut) as [err|].
      * eexists _, _, _. split; [reflexivity|]. right. split; [done|].
        exists (progressEvents st), err. split; [done|].
        apply existsb_failed_progress.
      * destruct (Hcont (progressEvents st
                           ++ persistEvents flagOut (counterexamples st1))
                        (S (creates wld))) as (evs & k & r & Hrun & Hres).
        { by rewrite existsb_app, existsb_failed_progress,
             existsb_failed_persist. }
        rewrite Hrun. by eexists _, _, _.
    + destruct (Hcont (progressEvents st) (creates wld))
        as (evs & k & r & Hrun & Hres); [apply existsb_failed_progress|].
      rewrite Hrun. by eexists _, _, _.
Qed.

(** X14: a failed [os.Create] ends the run on the spot: when the exit status
    is 1, the events of the run end with that failed creation and the line
    that reports its error on standard error; no creation failed before it,
    and nothing is evaluated, written or closed after it. *)
Theorem create_failure_stops_run nargs flagOut progs :
  exitStatus (main createErr nargs flagOut progs world0).2 = Some 1%Z →
  ∃ tr err,
    trace (main createErr nargs flagOut progs world0).1
    = tr ++ [EvCreate flagOut false; EvStderr (err +:+ nl)]
    ∧ existsb isFailedCreate tr = false.
Proof.
  unfold main. destruct (decide (0 < nargs)) as [Hargs|Hargs]; [done|].
  unfold mbind, IO_bind.
  destruct (runLoop_stop flagOut progs initState world0 wfState_init)
    as (evs & k & r & Hrun
        & [(st & -> & Hwf & Hok)|(-> & evs' & err & -> & Hok)]).
  - rewrite Hrun, (finish_run createErr flagOut st _ Hwf). cbn [trace creates].
    destruct (decide (flagOut ≠ EmptyString)) as [Hout|Hout]; [|done].
    destruct (createErr k flagOut) as [err|]; [|done].
    intros _. simpl app.
    exists (evs ++ [EvStderr (cr +:+ pretty (n st) +:+ " progs" +:+ nl)]), err.
    split.
    + simpl. by rewrite <- app_assoc.
    + by rewrite existsb_app, Hok.
  - rewrite Hrun. intros _. by exists evs', err.
Qed.

End MoreMainFacts.

Section ProgressFacts.
Context `{Decls}.
Variable createErr : nat → string → option string.
Hypothesis createErr_ok : ∀ k path, createErr k path = None.
Implicit Types (t : Table) (st : State) (wld : World) (ps progs : list Prog).

Lemma rem_10_nat (k : nat) : Z.rem (Z.of_nat k) 10 = 0%Z ↔ k mod 10 = 0.
Proof.
  rewrite Z.rem_mod_nonneg by lia.
  change 10%Z with (Z.of_nat 10). rewrite <- Nat2Z.inj_mod. lia.
Qed.

Lemma stderrEvents_app (tr1 tr2 : list Event) :
  stderrEvents (tr1 ++ tr2) = stderrEvents tr1 ++ stderrEvents tr2.
Proof. apply filter_app. Qed.

Lemma stderrEvents_writes w (chunks : list string) :
  stderrEvents (map (EvWrite w) chunks) = [].
Proof.
  induction chunks as [|s chunks IH]; [done|]. simpl.
  unfold stderrEvents in *. rewrite filter_cons_False; [done|]. by intros [].
Qed.

Lemma stderrEvents_persist path t : stderrEvents (persistEvents path t) = [].
Proof.
  unfold persistEvents. rewrite !stderrEvents_app, stderrEvents_writes. done.
Qed.

Lemma stderrEvents_progress st k :
  n st = Z.of_nat k →
  stderrEvents (progressEvents st)
  = if decide (k mod 10 = 0) then [progressLine k] else [].
Proof.
  intros Hn. unfold progressEvents, progressLine. rewrite Hn.
  destruct (decide (k mod 10 = 0)) as [Hk|Hk].
  - by rewrite decide_True by (by apply rem_10_nat).
  - rewrite decide_False; [done|]. by rewrite rem_10_nat.
Qed.

Lemma runLoop_progress flagOut ps :
  ∀ st wld k0,
    wfState st → n st = Z.of_nat k0 →
    (Z.of_nat (k0 + length ps) < 2 ^ 63)%Z →
    ∃ st' wld',
      runLoop createErr flagOut ps st wld = (wld', Val st')
      ∧ wfState st' ∧ n st' = Z.of_nat (k0 + length ps)
      ∧ stderrEvents (trace wld')
        = stderrEvents (trace wld)
            ++ (progressLine <$> filter (λ k, k mod 10 = 0)
                                        (seq k0 (length ps))).
Proof.
  induction ps as [|p ps IH]; intros st wld k0 Hwf Hn Hbound.
  - exists st, wld. split_and!; try done.
    + rewrite Hn. f_equal. simpl. lia.
    + simpl. by rewrite app_nil_r.
  - destruct (advance_spec p st Hwf) as (st1 & Hadv & Hwf1 & Hn1 & _).
    assert (Hn1' : n st1 = Z.of_nat (S k0)).
    { rewrite Hn1, Hn. rewrite wrap64_small; simpl length in Hbound; lia. }
    assert (Hbound1 : (Z.of_nat (S k0 + length ps) < 2 ^ 63)%Z).
    { simpl length in Hbound. lia. }
    simpl runLoop. unfold mbind, IO_bind.
    rewrite (loopBody_run createErr flagOut p st st1 wld Hwf Hadv).
    rewrite createErr_ok.
    assert (Hseq :
      progressLine <$> filter (λ k, k mod 10 = 0) (seq k0 (length (p :: ps)))
      = stderrEvents (progressEvents st)
          ++ (progressLine <$> filter (λ k, k mod 10 = 0)
                                      (seq (S k0) (length ps)))).
    { rewrite (stderrEvents_progress st k0 Hn). simpl seq.
      destruct (decide (k0 mod 10 = 0)) as [Hk|Hk].
      - by rewrite filter_cons_True by done.
      - by rewrite filter_cons_False by done. }
    rewrite Hseq.
    destruct (decide (Z.rem (n st1) 100 = 0%Z ∧ flagOut ≠ EmptyString)).
    + destruct (IH st1
        (mkWorld (trace wld ++ progressEvents st
                    ++ persistEvents flagOut (counterexamples st1))
                 (S (creates wld))) (S k0) Hwf1 Hn1' Hbound1)
        as (st' & wld' & Hrun & Hwf' & Hn' & Htrace).
      exists st', wld'. split_and!; try done.
      * rewrite Hn'. f_equal. simpl. lia.
      * rewrite Htrace. cbn [trace].
        rewrite !stderrEvents_app, stderrEvents_persist, app_nil_r.
        by rewrite <- app_assoc.
    + destruct (IH st1
        (mkWorld (trace wld ++ progressEvents st) (creates wld))
        (S k0) Hwf1 Hn1' Hbound1)
        as (st' & wld' & Hrun & Hwf' & Hn' & Htrace).
      exists st', wld'. split_and!; try done.
      * rewrite Hn'. f_equal. simpl. lia.
      * rewrite Htrace. cbn [trace].
        rewrite !stderrEvents_app. by rewrite <- app_assoc.
Qed.

(** X15: in a run without positional arguments whose file creations succeed,
    the progress lines on standard error are those for the counts 0, 10, 20
    and so on below the number of generated programs, one before every
    tenth program is evaluated, and the last line, the only one that ends
    with a newline, reports the number of programs the generator yielded. *)
Theorem progress_lines flagOut progs :
  (Z.of_nat (length progs) < 2 ^ 63)%Z →
  stderrEvents (trace (main createErr 0 flagOut progs world0).1)
  = (progressLine <$> filter (λ k, k mod 10 = 0) (seq 0 (length progs)))
      ++ [EvStderr (cr +:+ pretty (Z.of_nat (length progs)) +:+ " progs"
                       +:+ nl)].
Proof.
  intros Hbound.
  destruct (runLoop_progress flagOut progs initState world0 0 wfState_init)
    as (final & wld' & Hrun & Hwf & Hn & Htrace); [done|done|].
  unfold main. rewrite decide_False by lia.
  unfold mbind, IO_bind. rewrite Hrun.
  rewrite (finish_run createErr flagOut final wld' Hwf), createErr_ok.
  simpl in Hn. rewrite Hn.
  destruct (decide (flagOut ≠ EmptyString)) as [Hout|Hout]; cbn [fst trace].
  - rewrite !stderrEvents_app, Htrace, stderrEvents_persist, app_nil_r.
    done.
  - rewrite !stderrEvents_app, Htrace, stderrEvents_writes, app_nil_r.
    done.
Qed.

End ProgressFacts.

(** ** The commented witness, line by line *)

Lemma lines_app_nl (a b : string) :
  lines (a +:+ nl +:+ b) = lines a ++ lines b.
Proof.
  induction a as [|c a IH]; [done|].
  rewrite string_app_cons. simpl. rewrite IH.
  case_decide; [done|].
  by destruct (lines_nonempty a) as (l & ls & ->).
Qed.

Lemma lines_no_newline (s : string) :
  allChars (λ c, negb (bool_decide (c = "010"%char))) s = true →
  lines s = [s].
Proof.
  induction s as [|c s IH]; [done|]. simpl.
  intros [Hc Hs]%andb_true_iff. apply negb_true_iff in Hc.
  apply bool_decide_eq_false in Hc. rewrite decide_False by done.
  by rewrite IH.
Qed.

Lemma lines_each_no_newline (s : string) :
  Forall (λ l, allChars (λ c, negb (bool_decide (c = "010"%char))) l = true)
         (lines s).
Proof.
  induction s as [|c s IH]; simpl; [by repeat constructor|].
  case_decide as Hc; [by constructor|].
  destruct (lines s) as [|l ls]; [by repeat constructor; simpl;
    rewrite bool_decide_false|].
  apply Forall_cons in IH as [Hl Hls]. constructor; [|done].
  simpl. by rewrite bool_decide_false, Hl.
Qed.

Lemma lines_commentedTail (x : string) (ls : list string) :
  allChars (λ c, negb (bool_decide (c = "010"%char))) x = true →
  Forall (λ l, allChars (λ c, negb (bool_decide (c = "010"%char))) l = true)
         ls →
  lines (x +:+ commentedTail ls +:+ nl)
  = x :: ((λ l, "# " +:+ l) <$> ls) ++ [EmptyString].
Proof.
  intros Hx Hls. revert x Hx.
  induction Hls as [|l ls Hl _ IH]; intros x Hx.
  - change (x +:+ commentedTail [] +:+ nl) with (x +:+ nl +:+ EmptyString).
    by rewrite lines_app_nl, (lines_no_newline x).
  - change (x +:+ commentedTail (l :: ls) +:+ nl)
      with (x +:+ (nl +:+ "# " +:+ l +:+ commentedTail ls) +:+ nl).
    rewrite !string_app_assoc.
    change (x +:+ nl +:+ "# " +:+ l +:+ commentedTail ls +:+ nl)
      with (x +:+ nl +:+ (("# " +:+ l) +:+ commentedTail ls +:+ nl)).
    rewrite lines_app_nl, (lines_no_newline x) by done.
    rewrite IH; [done|]. simpl. done.
Qed.

(** X16: the text the emitter writes for a witness is a comment line by
    line: its lines are the lines of the text of the program, each with the
    comment prefix in front, followed by the end of the last line; whatever
    the program prints, no line of it reaches the graph outside a
    comment. *)
Theorem commented_witness_lines (text : string) :
  lines ("# " +:+ replaceNewlines text +:+ nl)
  = ((λ l, "# " +:+ l) <$> lines text) ++ [EmptyString].
Proof.
  destruct (lines_nonempty text) as (l & ls & Htext).
  pose proof (lines_each_no_newline text) as Hall. rewrite Htext in Hall.
  apply Forall_cons in Hall as [Hl Hls].
  rewrite (replaceNewlines_lines text l ls Htext), Htext.
  rewrite string_app_assoc.
  change ("# " +:+ l +:+ commentedTail ls +:+ nl)
    with (("# " +:+ l) +:+ commentedTail ls +:+ nl).
  by rewrite lines_commentedTail.
Qed.

(** ** The properties on the small instances *)

Section MoreInstances.
Import Regexp Builds SampleFS.

Example listBuilds_commit_fails : listBuilds listCommit = Fatal "no such file".
Proof. vm_compute. reflexivity. Qed.

Example resolveName_ambiguous :
  resolveName "0123456" = Fatal "ambiguous name `0123456`".
Proof. vm_compute. reflexivity. Qed.

Example parseCommit_sample :
  parseCommit commitA
  = Ok (mkCommit (Unix 1469000000 0) "runtime: fix the frobnicator").
Proof. vm_compute. reflexivity. Qed.

Lemma listBuilds_lists_build_dirs_witness :
  ∃ bs,
    listBuilds 0 = Ok (inl bs)
    ∧ fullName <$> bs = Name <$> buildDirs files
    ∧ path <$> bs = (λ f, Join [verDir; Name f]) <$> buildDirs files
    ∧ Forall (λ b, names b = [] ∧ commit_ b = None
                   ∧ hexDigits 40 (commitHash b)
                   ∧ (deltaHash b = EmptyString ∨ hexDigits 10 (deltaHash b)))
             bs.
Proof.
  apply (listBuilds_lists_build_dirs 0 files); reflexivity.
Defined.

Lemma listBuilds_names_witness :
  listBuilds listNames
  = Ok (inl ((λ f, withNames (linksTo files (Name f)) (buildOf (Name f)))
               <$> buildDirs files)).
Proof.
  apply (listBuilds_names listNames files).
  - reflexivity.
  - reflexivity.
  - vm_compute. discriminate.
  - apply (bool_decide_unpack _). vm_compute. exact I.
Defined.

Lemma resolveName_by_prefix_witness :
  resolveName "01234567"
  = match filter (λ b, selects (SplitN2 "+" "01234567") b)
                 ((λ f, buildOf (Name f)) <$> buildDirs files) with
    | [] => Ok (Join [verDir; "01234567"], false)
    | [b] => Ok (Join [verDir; fullName b], true)
    | _ :: _ :: _ => Fatal ("ambiguous name `" +:+ "01234567" +:+ "`")
    end.
Proof.
  apply (resolveName_by_prefix "01234567"
           ((λ f, buildOf (Name f)) <$> buildDirs files)).
  - vm_compute. discriminate.
  - vm_compute. reflexivity.
  - vm_compute. reflexivity.
Defined.

Lemma resolveName_no_version_dir_witness :
  @resolveName sysNone "0123456"
  = Ok (@Join sysNone [@verDir sysNone; "0123456"], false).
Proof.
  apply (@resolveName_no_version_dir sysNone "0123456").
  - reflexivity.
  - vm_compute. discriminate.
Defined.

Lemma resolveName_full_name_witness :
  resolveName (Name dirA) = Ok (Join [verDir; Name dirA], true).
Proof.
  apply (resolveName_full_name files dirA).
  - reflexivity.
  - apply (bool_decide_unpack _). vm_compute. exact I.
  - apply (bool_decide_unpack _). vm_compute. exact I.
Defined.

Lemma shortName_resolves_witness :
  ∃ s, shortName (buildOf (Name dirAd)) = Ok s
       ∧ MatchString hashNameRe s = true
       ∧ (Stat (Join [verDir; s]) ≠ Some true →
          resolveName s = Ok (Join [verDir; Name dirAd], true)
          ∨ resolveName s = Fatal ("ambiguous name `" +:+ s +:+ "`")).
Proof.
  apply (shortName_resolves files dirAd).
  - reflexivity.
  - apply (bool_decide_unpack _). vm_compute. exact I.
  - apply (bool_decide_unpack _). vm_compute. exact I.
Defined.

Lemma parseCommit_author_and_top_line_witness :
  parseCommit commitA
  = Ok (mkCommit (Unix 1469000000 0) "runtime: fix the frobnicator").
Proof.
  apply (parseCommit_author_and_top_line commitA
           ["tree 9d1b"]
           "author A U Thor <author@example.com> 1469000000 -0400"
           ["committer C O Mitter <committer@example.com> 1469000100 -0400"]
           "runtime: fix the frobnicator"
           [EmptyString; "author of the bug unknown"; EmptyString]
           "1469000000" 1469000000%Z).
  - vm_compute. reflexivity.
  - apply (bool_decide_unpack _). vm_compute. exact I.
  - apply (bool_decide_unpack _). vm_compute. exact I.
  - reflexivity.
  - vm_compute. lia.
  - vm_compute. reflexivity.
  - vm_compute. reflexivity.
Defined.

Lemma parseCommit_ignores_body_witness : parseCommit commitA = parseCommit commitA'.
Proof.
  apply (parseCommit_ignores_body commitA commitA'
           ["tree 9d1b";
            "author A U Thor <author@example.com> 1469000000 -0400";
            "committer C O Mitter <committer@example.com> 1469000100 -0400"]
           "runtime: fix the frobnicator"
           [EmptyString; "author of the bug unknown"; EmptyString]
           ["author Some One <one@example.com> 7 +0000"]).
  - vm_compute. reflexivity.
  - vm_compute. reflexivity.
  - apply (bool_decide_unpack _). vm_compute. exact I.
Defined.

Lemma parseCommit_no_message_panics_witness :
  parseCommit ("tree 9d1b" +:+ nl) = Panicked.
Proof.
  apply (parseCommit_no_message_panics ("tree 9d1b" +:+ nl) ["tree 9d1b"]).
  - vm_compute. reflexivity.
  - apply (bool_decide_unpack _). vm_compute. exact I.
Defined.

Lemma parseCommit_header_only_witness :
  parseCommit headerOnly = Ok (mkCommit TimeZero EmptyString).
Proof.
  apply (parseCommit_header_only headerOnly).
  apply (bool_decide_unpack _). vm_compute. exact I.
Defined.

Lemma parseCommit_bad_author_witness :
  (length (Fields "author ") < 2 → parseCommit "author " = Panicked)
  ∧ (∀ f err,
       2 ≤ length (Fields "author ") →
       Fields "author " !! (length (Fields "author ") - 2) = Some f →
       ParseInt f = inr err →
       parseCommit "author "
       = Fatal ("malformed author in commit: " +:+ err)).
Proof.
  apply (parseCommit_bad_author "author " [] "author " []).
  - reflexivity.
  - constructor.
  - reflexivity.
Defined.

Lemma table_holds_first_witness_witness :
  ∃ st' c,
    stateAfter [Demo.loads; Demo.sb; Demo.sb] initState = Some st'
    ∧ getCell (counterexamples st') 1 0 = Some c
    ∧ c = default Prog_zero
            (firstWitness 1 0 [Demo.loads; Demo.sb; Demo.sb]
               (outcomes initState))
    ∧ (cellEmpty c = true
       ↔ firstWitness 1 0 [Demo.loads; Demo.sb; Demo.sb] (outcomes initState)
         = None).
Proof.
  apply (table_holds_first_witness [Demo.loads; Demo.sb; Demo.sb] 1 0).
  - reflexivity.
  - apply (bool_decide_unpack _). vm_compute. exact I.
  - lia.
  - simpl. lia.
  - simpl. lia.
Defined.

Lemma create_failure_stops_run_witness :
  ∃ tr err,
    trace (main Demo.createFail2 0 "out.dot" (replicate 200 Demo.sb) world0).1
    = tr ++ [EvCreate "out.dot" false; EvStderr (err +:+ nl)]
    ∧ existsb isFailedCreate tr = false.
Proof.
  apply (create_failure_stops_run Demo.createFail2 0 "out.dot"
           (replicate 200 Demo.sb)).
  vm_compute. reflexivity.
Defined.

Lemma progress_lines_witness :
  stderrEvents
    (trace (main Demo.createOk 0 "out.dot" (replicate 25 Demo.sb) world0).1)
  = (progressLine <$> filter (λ k, k mod 10 = 0)
                             (seq 0 (length (replicate 25 Demo.sb))))
      ++ [EvStderr (cr +:+ pretty (Z.of_nat (length (replicate 25 Demo.sb)))
                       +:+ " progs" +:+ nl)].
Proof.
  apply (progress_lines Demo.createOk (λ _ _, eq_refl) "out.dot"
           (replicate 25 Demo.sb)).
  vm_compute. reflexivity.
Defined.

End MoreInstances.
